(** * rules_python_external: wheel fetching and entry-point installation

    A shallow embedding of [extract_wheels/__init__.py] and
    [src/entry_points.py], followed by the properties proved about them.

    Python [str] values are modelled as [string]; a character is an 8-bit
    code point.  [os.environ] and directories are finite maps keyed by
    name. *)

From Stdlib Require Import ZArith Ascii String.
From stdpp Require Import base option list gmap strings.

Local Open Scope Z_scope.

(** ** Python string primitives used by the two source files *)
Module PyStr.

(** The double quote and the newline, which the template literals need. *)
Definition dquote : string := String (ascii_of_nat 34) EmptyString.
Definition newline : string := String (ascii_of_nat 10) EmptyString.

(** [s.startswith(p)] *)
Definition startswith (s p : string) : bool := String.prefix p s.

(** [s.endswith(suf)]: some tail of [s] is [suf]. *)
Fixpoint endswith (s suf : string) : bool :=
  String.eqb s suf ||
  match s with
  | EmptyString => false
  | String _ s' => endswith s' suf
  end.

(** [c.isspace()] for a code point below 256. *)
Definition isspace (c : ascii) : bool :=
  let n := nat_of_ascii c in
  bool_decide (n ∈ [9; 10; 11; 12; 13; 28; 29; 30; 31; 32; 133; 160]%nat).

(** [s.split()] with no separator: the maximal runs of characters that
    are not whitespace.  [cur] is the run being read. *)
Fixpoint split_from (cur s : string) : list string :=
  match s with
  | EmptyString => if decide (cur = "") then [] else [cur]
  | String c s' =>
      if isspace c
      then (if decide (cur = "") then [] else [cur]) ++ split_from "" s'
      else split_from (cur +:+ String c "") s'
  end.
Definition split (s : string) : list string := split_from "" s.

(** [f.readlines()]: the lines of a text, each keeping its newline. *)
Fixpoint readlines_from (cur s : string) : list string :=
  match s with
  | EmptyString => if decide (cur = "") then [] else [cur]
  | String c s' =>
      if Ascii.eqb c (ascii_of_nat 10)
      then (cur +:+ newline) :: readlines_from "" s'
      else readlines_from (cur +:+ String c "") s'
  end.
Definition readlines (content : string) : list string :=
  readlines_from "" content.

(** [sep.join(parts)] *)
Fixpoint join (sep : string) (parts : list string) : string :=
  match parts with
  | [] => ""
  | [p] => p
  | p :: ps => p +:+ sep +:+ join sep ps
  end.

(** Lookup in keyword arguments. *)
Fixpoint kwarg (kwargs : list (string * string)) (k : string) : option string :=
  match kwargs with
  | [] => None
  | (k', v) :: kwargs' => if decide (k = k') then Some v else kwarg kwargs' k
  end.

(** [template.format(args..., kwargs...)] for fields that are empty
    (taken from [args] in turn) or a keyword; a doubled brace is a literal
    brace.  [None] is the [KeyError], [IndexError] or [ValueError] of a
    field that cannot be filled or a brace that is not matched.
    [field] is the field name being read, if any. *)
Fixpoint format_from (field : option string) (template : string)
    (args : list string) (kwargs : list (string * string)) : option string :=
  match template with
  | EmptyString =>
      match field with
      | None => Some ""
      | Some _ => None
      end
  | String c rest =>
      match field with
      | Some name =>
          if Ascii.eqb c "}" then
            match name with
            | EmptyString =>
                match args with
                | [] => None
                | v :: args' =>
                    String.append v <$> format_from None rest args' kwargs
                end
            | _ =>
                v ← kwarg kwargs name;
                String.append v <$> format_from None rest args kwargs
            end
          else format_from (Some (name +:+ String c "")) rest args kwargs
      | None =>
          if Ascii.eqb c "{" then
            match rest with
            | String c' rest' =>
                if Ascii.eqb c' "{"
                then String c <$> format_from None rest' args kwargs
                else format_from (Some "") rest args kwargs
            | EmptyString => None
            end
          else if Ascii.eqb c "}" then
            match rest with
            | String c' rest' =>
                if Ascii.eqb c' "}"
                then String c <$> format_from None rest' args kwargs
                else None
            | EmptyString => None
            end
          else String c <$> format_from None rest args kwargs
      end
  end.
Definition format (template : string) (args : list string)
    (kwargs : list (string * string)) : option string :=
  format_from None template args kwargs.

End PyStr.

(** ** extract_wheels/__init__.py *)
Module extract_wheels.
Import PyStr.

(** [os.environ] *)
Abbreviation Environ := (gmap string string).

(** [configure_reproducible_wheels()], as a function on [os.environ]. *)
Definition configure_reproducible_wheels (environ : Environ) : Environ :=
  let environ :=
    match environ !! "CFLAGS" with
    | Some flags => <["CFLAGS" := flags +:+ " -g0"]> environ
    | None => <["CFLAGS" := "-g0"]> environ
    end in
  let environ :=
    match environ !! "SOURCE_DATE_EPOCH" with
    | None => <["SOURCE_DATE_EPOCH" := "315532800"]> environ
    | Some _ => environ
    end in
  match environ !! "PYTHONHASHSEED" with
  | None => <["PYTHONHASHSEED" := "0"]> environ
  | Some _ => environ
  end.

(** *** The command line (lines 91-111)

    [argparse] is modelled for the parser that [main] builds: the help
    option that every parser has and the three options added with
    [add_argument].  The model follows [ArgumentParser.parse_args] of
    the standard library: every argument is first classified, then the
    options are consumed from left to right. *)
Module argparse.

Inductive action :=
| help
| store_requirements
| store_repo
| store_true_precompiled.

(** [parser._option_string_actions] *)
Definition option_string_actions : list (string * action) :=
  [ ("-h", help); ("--help", help);
    ("--requirements", store_requirements);
    ("--repo", store_repo);
    ("--precompiled", store_true_precompiled) ].

Fixpoint lookup_action (table : list (string * action)) (o : string)
    : option action :=
  match table with
  | [] => None
  | (o', a) :: table' =>
      if decide (o = o') then Some a else lookup_action table' o
  end.

(** [s.split('=', 1)] when [s] contains the equals sign. *)
Fixpoint partition_eq (s : string) : option (string * string) :=
  match s with
  | EmptyString => None
  | String c s' =>
      if Ascii.eqb c "=" then Some ("", s')
      else prod_map (String c) id <$> partition_eq s'
  end.

Definition isdigit (c : ascii) : bool :=
  let n := nat_of_ascii c in (48 <=? n)%nat && (n <=? 57)%nat.

Fixpoint all_digits (s : string) : bool :=
  match s with
  | EmptyString => true
  | String c s' => isdigit c && all_digits s'
  end.

(** Digits, then optionally a dot and at least one digit; with no
    dot at least one digit. *)
Fixpoint number_tail (seen_digit : bool) (s : string) : bool :=
  match s with
  | EmptyString => seen_digit
  | String c s' =>
      if isdigit c then number_tail true s'
      else Ascii.eqb c "." && negb (bool_decide (s' = "")) && all_digits s'
  end.

(** [parser._negative_number_matcher] *)
Definition negative_number (s : string) : bool :=
  match s with
  | String c s' => Ascii.eqb c "-" && number_tail false s'
  | EmptyString => false
  end.

Fixpoint has_space (s : string) : bool :=
  match s with
  | EmptyString => false
  | String c s' => Ascii.eqb c " " || has_space s'
  end.

(** The class of one argument: ['A'] for a value, ['O'] for an
    option string with the action it selects (none when it is not
    recognised), the matched option string and the argument attached
    to it, and ['-'] for the double dash. *)
Inductive arg_class :=
| A_
| O_ (a : option action) (option_string : string)
     (explicit_arg : option string)
| Dash_.

(** [parser._get_option_tuples]: the options that an abbreviated
    option string may stand for. *)
Definition _get_option_tuples (arg_string : string)
    : list (action * string * option string) :=
  if startswith arg_string "--" then
    let '(option_prefix, explicit_arg) :=
      match partition_eq arg_string with
      | Some (o, e) => (o, Some e)
      | None => (arg_string, None)
      end in
    omap (fun '(o, a) =>
            if startswith o option_prefix
            then Some (a, o, explicit_arg) else None)
         option_string_actions
  else
    let short_option_prefix := String.substring 0 2 arg_string in
    let short_explicit_arg :=
      String.substring 2 (String.length arg_string - 2) arg_string in
    omap (fun '(o, a) =>
            if decide (o = short_option_prefix)
            then Some (a, o, Some short_explicit_arg)
            else if startswith o arg_string
            then Some (a, o, None) else None)
         option_string_actions.

(** [parser._parse_optional]; [None] is the error of an ambiguous
    abbreviation. *)
Definition _parse_optional (arg_string : string) : option arg_class :=
  match arg_string with
  | EmptyString => Some A_
  | String c _ =>
      if negb (Ascii.eqb c "-") then Some A_ else
      match lookup_action option_string_actions arg_string with
      | Some a => Some (O_ (Some a) arg_string None)
      | None =>
          if decide (String.length arg_string = 1%nat) then Some A_ else
          match
            '(o, e) ← partition_eq arg_string;
            a ← lookup_action option_string_actions o;
            Some (O_ (Some a) o (Some e))
          with
          | Some cls => Some cls
          | None =>
              match _get_option_tuples arg_string with
              | _ :: _ :: _ => None
              | [(a, o, e)] => Some (O_ (Some a) o e)
              | [] =>
                  if negative_number arg_string then Some A_
                  else if has_space arg_string then Some A_
                  else Some (O_ None arg_string None)
              end
          end
      end
  end.

(** The first pass of [_parse_known_args]: every argument up to a
    double dash is classified, everything after it is a value. *)
Fixpoint classify (arg_strings : list string)
    : option (list (string * arg_class)) :=
  match arg_strings with
  | [] => Some []
  | s :: rest =>
      if decide (s = "--")
      then Some ((s, Dash_) :: map (fun s' => (s', A_)) rest)
      else
        cls ← _parse_optional s;
        tl ← classify rest;
        Some ((s, cls) :: tl)
  end.

End argparse.

(** [args], the namespace that [parse_args] returns *)
Record Namespace := {
  requirements : string;
  repo : string;
  precompiled : bool;
}.

(** [subprocess.CompletedProcess] *)
Record CompletedProcess := {
  args : list string;
  returncode : Z;
}.

(** The exceptions that leave [main]. *)
Inductive exn :=
| RuntimeError (failed_procs : list CompletedProcess)
| CalledProcessError (returncode : Z) (cmd : list string) (output : string)
| SystemExit (status : Z)
| IndexError
| FileNotFoundError (path : string)
| LibraryError (msg : string).

Module argparse_run.
Import argparse.

(** The namespace while the arguments are consumed. *)
Record partial := {
  p_requirements : option string;
  p_repo : option string;
  p_precompiled : bool;
}.

Fixpoint all_h (s : string) : bool :=
  match s with
  | EmptyString => true
  | String c s' => Ascii.eqb c "h" && all_h s'
  end.

(** An argument attached to an option that takes none: after a
    single-dash option the attached characters are read as further
    single-dash options, otherwise it is an error. *)
Definition flag_with_explicit_arg (option_string explicit_arg : string)
    : exn :=
  if decide (option_string = "-h") then
    match explicit_arg with
    | EmptyString => SystemExit 2
    | _ => if all_h explicit_arg then SystemExit 0 else SystemExit 2
    end
  else SystemExit 2.

(** The second pass: options are consumed from the left; [extras]
    records that an argument was left over. *)
Fixpoint consume (classified : list (string * arg_class))
    (ns : partial) (extras : bool) : exn + Namespace :=
  match classified with
  | [] =>
      match p_requirements ns, p_repo ns with
      | Some r, Some p =>
          if extras then inl (SystemExit 2)
          else inr {| requirements := r; repo := p;
                      precompiled := p_precompiled ns |}
      | _, _ => inl (SystemExit 2)
      end
  | (_, A_) :: rest => consume rest ns true
  | (_, Dash_) :: _ => inl (SystemExit 2)
  | (_, O_ None _ _) :: rest => consume rest ns true
  | (_, O_ (Some help) _ None) :: _ => inl (SystemExit 0)
  | (_, O_ (Some help) o (Some e)) :: _ =>
      inl (flag_with_explicit_arg o e)
  | (_, O_ (Some store_true_precompiled) _ None) :: rest =>
      consume rest
        {| p_requirements := p_requirements ns; p_repo := p_repo ns;
           p_precompiled := true |} extras
  | (_, O_ (Some store_true_precompiled) o (Some e)) :: _ =>
      inl (flag_with_explicit_arg o e)
  | (_, O_ (Some store_requirements) _ (Some e)) :: rest =>
      consume rest
        {| p_requirements := Some e; p_repo := p_repo ns;
           p_precompiled := p_precompiled ns |} extras
  | (_, O_ (Some store_repo) _ (Some e)) :: rest =>
      consume rest
        {| p_requirements := p_requirements ns; p_repo := Some e;
           p_precompiled := p_precompiled ns |} extras
  | (_, O_ (Some store_requirements) _ None) :: rest =>
      match rest with
      | (v, A_) :: rest' =>
          consume rest'
            {| p_requirements := Some v; p_repo := p_repo ns;
               p_precompiled := p_precompiled ns |} extras
      | _ => inl (SystemExit 2)
      end
  | (_, O_ (Some store_repo) _ None) :: rest =>
      match rest with
      | (v, A_) :: rest' =>
          consume rest'
            {| p_requirements := p_requirements ns; p_repo := Some v;
               p_precompiled := p_precompiled ns |} extras
      | _ => inl (SystemExit 2)
      end
  end.

(** [parser.parse_args()] on [sys.argv[1:]] *)
Definition parse_args (argv : list string) : exn + Namespace :=
  match classify argv with
  | None => inl (SystemExit 2)
  | Some classified =>
      consume classified
        {| p_requirements := None; p_repo := None;
           p_precompiled := false |} false
  end.

End argparse_run.

(** *** The process and what surrounds it *)

(** The files of the working directory, by path. *)
Abbreviation Files := (gmap string string).

(** [req.name], [req.specifier] (as [format] renders it) and
    [req.extras] of a parsed requirement. *)
Record Requirement := {
  name : string;
  specifier : string;
  extras : list string;
}.

(** What [parse_requirements] yields: [r.req] is the requirement. *)
Record InstallRequirement := {
  req : Requirement;
}.

(** What a child process does: its exit status, its standard output
    and the files it leaves. *)
Record Outcome := {
  exit_status : Z;
  stdout : string;
  files_after : Files;
}.

(** The collaborators of this file.  [run_process n cmd env files] is
    the [n]-th child process that the program starts; it runs [cmd].
    [parse_extras], [extract_wheel] and
    [generate_requirements_file_contents] belong to
    [extract_wheels.lib], which [main] imports and whose code is in
    other files; [parse_requirements] belongs to pip. *)
Class Platform := {
  Extras : Type;
  sys_executable : string;
  run_process : nat → list string → Environ → Files → Outcome;
  parse_requirements : string → Files → exn + list InstallRequirement;
  parse_extras : string → Files → exn + Extras;
  extract_wheel : string → Extras → Files → (exn + string) * Files;
  generate_requirements_file_contents : string → list string → string;
}.

(** The state of a run: the environment, the files, the commands of
    the child processes started so far and the paths this program
    opened for writing. *)
Record World := {
  environ : Environ;
  files : Files;
  spawned : list (list string);
  written : list string;
}.

(** A computation that reads and changes the world and may raise. *)
Definition M (A : Type) : Type := World → (exn + A) * World.

Definition ret {A} (a : A) : M A := fun w => (inr a, w).
Definition raise {A} (e : exn) : M A := fun w => (inl e, w).
Definition bind {A B} (m : M A) (k : A → M B) : M B :=
  fun w =>
    match m w with
    | (inl e, w') => (inl e, w')
    | (inr a, w') => k a w'
    end.

Notation "x <~ m ;; k" := (bind m (fun x => k))
  (at level 100, m at next level, right associativity).
Notation "m ;;; k" := (bind m (fun _ => k))
  (at level 100, right associativity).

Definition lift {A} (r : exn + A) : M A := fun w => (r, w).

Section with_platform.
Context `{Platform}.

(** [subprocess.run(cmd)]: the child inherits the environment and
    is waited for. *)
Definition subprocess_run (cmd : list string) : M CompletedProcess :=
  fun w =>
    let o := run_process (length (spawned w)) cmd (environ w) (files w) in
    (inr {| args := cmd; returncode := exit_status o |},
     {| environ := environ w; files := files_after o;
        spawned := spawned w ++ [cmd]; written := written w |}).

(** [subprocess.check_output(cmd)] *)
Definition check_output (cmd : list string) : M string :=
  fun w =>
    let o := run_process (length (spawned w)) cmd (environ w) (files w) in
    let w' := {| environ := environ w; files := files_after o;
                 spawned := spawned w ++ [cmd]; written := written w |} in
    if decide (exit_status o = 0) then (inr (stdout o), w')
    else (inl (CalledProcessError (exit_status o) cmd (stdout o)), w').

(** The children that run a list of commands, the first of them being
    the [n]-th child of the program: what each returns, in the order
    of the commands, and the files they leave. *)
Fixpoint run_children (n : nat) (cmds : list (list string))
    (env : Environ) (fs : Files) : list CompletedProcess * Files :=
  match cmds with
  | [] => ([], fs)
  | cmd :: cmds' =>
      let o := run_process n cmd env fs in
      let '(procs, fs') := run_children (S n) cmds' env (files_after o) in
      ({| args := cmd; returncode := exit_status o |} :: procs, fs')
  end.

(** [open(path, "r")] and reading all of it *)
Definition read_file (path : string) : M string :=
  fun w =>
    match files w !! path with
    | Some content => (inr content, w)
    | None => (inl (FileNotFoundError path), w)
    end.

(** [open(path, "w")] and one [write] *)
Definition write_file (path content : string) : M unit :=
  fun w =>
    (inr (),
     {| environ := environ w; files := <[path := content]> (files w);
        spawned := spawned w; written := written w ++ [path] |}).

(** [_dl_wheel] *)
Definition _dl_wheel (req : Requirement)
    (additional_wheel_opts : list string) : M CompletedProcess :=
  match format "{}{}" [name req; specifier req] [] with
  | Some spec =>
      subprocess_run
        ([sys_executable; "-m"; "pip"; "wheel"; "--no-deps"]
           ++ additional_wheel_opts ++ [spec])
  | None => raise IndexError
  end.

(** [ex.map(fn, xs, ys)] inside [with ThreadPoolExecutor(5) as ex]:
    one call per pair; leaving the [with] block waits for every
    call.  The calls are threaded through the world in the order of
    submission and each keeps its result or its exception. *)
Fixpoint executor_map {A B C} (fn : A → B → M C)
    (xs : list A) (ys : list B) : M (list (exn + C)) :=
  match xs, ys with
  | x :: xs', y :: ys' =>
      fun w =>
        let '(r, w') := fn x y w in
        let '(rs, w'') := executor_map fn xs' ys' w' in
        (match rs with
         | inr rs' => inr (r :: rs')
         | inl e => inl e
         end, w'')
  | _, _ => ret []
  end.

(** Iterating over the results of [ex.map]: the first exception
    kept is raised. *)
Fixpoint results {C} (rs : list (exn + C)) : exn + list C :=
  match rs with
  | [] => inr []
  | inl e :: _ => inl e
  | inr c :: rs' =>
      match results rs' with
      | inl e => inl e
      | inr cs => inr (c :: cs)
      end
  end.

(** The loop of lines 63-66. *)
Definition wheel_cmd_opts_of (requirements_txt_lines : list string)
    : list string :=
  fold_left
    (fun wheel_cmd_opts l =>
       if startswith l "--" then wheel_cmd_opts ++ split l
       else wheel_cmd_opts)
    requirements_txt_lines [].

(** [_fetch_packages_parallel] *)
Definition _fetch_packages_parallel (requirements_filepath : string)
    : M unit :=
  content <~ read_file requirements_filepath ;;
  let requirements_txt_lines := readlines content in
  let wheel_cmd_opts := wheel_cmd_opts_of requirements_txt_lines in
  parsed_reqs <~
    (fun w => (parse_requirements requirements_filepath (files w), w)) ;;
  kept <~
    executor_map _dl_wheel
      (map req parsed_reqs)
      (map (fun _ => wheel_cmd_opts) (seq 0 (length parsed_reqs))) ;;
  completed_procs <~ lift (results kept) ;;
  let failed_procs :=
    filter (fun proc => returncode proc ≠ 0) completed_procs in
  match failed_procs with
  | [] => ret ()
  | _ :: _ => raise (RuntimeError failed_procs)
  end.

(** [glob.glob("*.whl")]: the names in the working directory that
    match the pattern; a leading dot is not matched by the star. *)
Definition glob_whl (fs : Files) : list string :=
  filter
    (fun n =>
       endswith n ".whl" = true
       ∧ startswith n "." = false
       ∧ String.index 0 "/" n = None)
    (elements (dom fs)).

(** One element of the [targets] comprehension of lines 124-127. *)
Definition target (repo : string) (extras : Extras) (whl : string)
    : M string :=
  suffix <~ (fun w =>
               let '(r, fs) := extract_wheel whl extras (files w) in
               (r, {| environ := environ w; files := fs;
                      spawned := spawned w; written := written w |})) ;;
  ret (dquote +:+ repo +:+ suffix +:+ dquote).

Fixpoint for_each {A B} (f : A → M B) (xs : list A) : M (list B) :=
  match xs with
  | [] => ret []
  | x :: xs' => b <~ f x ;; bs <~ for_each f xs' ;; ret (b :: bs)
  end.

(** [main], with [sys.argv[1:]] as its argument. *)
Definition main (argv : list string) : M unit :=
  (fun w => (inr (),
             {| environ := configure_reproducible_wheels (environ w);
                files := files w; spawned := spawned w;
                written := written w |})) ;;;
  args <~ lift (argparse_run.parse_args argv) ;;
  let wheel_cmd :=
    [sys_executable; "-m"; "pip"; "wheel"; "-r"; requirements args] in
  (if precompiled args
   then _fetch_packages_parallel (requirements args)
   else (check_output wheel_cmd ;;; ret ())) ;;;
  extras <~ (fun w => (parse_extras (requirements args) (files w), w)) ;;
  whls <~ (fun w => (inr (glob_whl (files w)), w)) ;;
  targets <~ for_each (target (repo args) extras) whls ;;
  write_file "requirements.bzl"
    (generate_requirements_file_contents (repo args) targets).

End with_platform.

(** *** A small run to evaluate the definitions on *)
Module example.

Definition requirements_txt : string :=
  "--find-links /wheels" +:+ newline +:+
  "flask==2.0.1" +:+ newline +:+
  "click==8.0.0" +:+ newline.

Definition flask : Requirement :=
  {| name := "flask"; specifier := "==2.0.1"; extras := [] |}.
Definition click : Requirement :=
  {| name := "click"; specifier := "==8.0.0"; extras := [] |}.

(** A platform on which click cannot be fetched, nor anything from
    [broken.txt], and every other child leaves one wheel. *)
Definition platform : Platform := {|
  Extras := unit;
  sys_executable := "python3";
  run_process := λ _ cmd _ fs,
    if bool_decide ("click==8.0.0" ∈ cmd ∨ "broken.txt" ∈ cmd)
    then {| exit_status := 1;
            stdout := "ERROR: No matching distribution found";
            files_after := fs |}
    else {| exit_status := 0; stdout := "";
            files_after := <["flask-2.0.1-py2.py3-none-any.whl" := ""]> fs |};
  parse_requirements := λ path fs,
    match fs !! path with
    | Some _ => inr [ {| req := flask |}; {| req := click |} ]
    | None => inl (FileNotFoundError path)
    end;
  parse_extras := λ _ _, inr ();
  extract_wheel := λ whl _ fs, (inr ("//pypi__" +:+ whl), fs);
  generate_requirements_file_contents := λ _ targets, join "," targets;
|}.

Definition world : World := {|
  environ := ∅;
  files := <["requirements.txt" := requirements_txt]>
             (<["broken.txt" := "nosuchpackage==1"]> ∅);
  spawned := [];
  written := [];
|}.

End example.

End extract_wheels.

(** ** src/entry_points.py *)
Module entry_points.
Import PyStr.

(** What [pkg_resources] knows of a distribution: [distribution.key],
    [distribution.version] and the items of
    [distribution.get_entry_map("console_scripts")], each entry point
    as [str] renders it. *)
Record Distribution := {
  key : string;
  version : string;
  console_scripts : list (string * string);
}.

(** What is found at [os.path.join(extracted_whl_directory, "bin")]:
    nothing, a regular file, or a directory of files by name. *)
Inductive node :=
| NoEntry
| RegularFile (content : string)
| Directory (entries : gmap string string).

(** An extracted wheel on disk: the distributions that
    [pkg_resources.find_distributions] yields for the directory, in
    order, and its [bin] entry. *)
Record ExtractedWhl := {
  distributions : list Distribution;
  bin : node;
}.

Inductive exn :=
| RuntimeError (msg : string)
| FileExistsError (path : string)
| FileNotFoundError (path : string).

(** The collaborators: the text of the script that setuptools'
    [install_scripts] writes for an entry point of a distribution, and
    the order in which [os.listdir] lists a directory, which is any
    order without repetition. *)
Class Platform := {
  script_text : Distribution → string → string → string;
  listdir : gmap string string → list string;
  listdir_NoDup : ∀ entries, NoDup (listdir entries);
  listdir_elem : ∀ entries f, f ∈ listdir entries ↔ is_Some (entries !! f);
}.

(** [os.path.join(a, b)] *)
Definition path_join (a b : string) : string :=
  if startswith b "/" then b
  else if bool_decide (a = "") || endswith a "/" then a +:+ b
  else a +:+ "/" +:+ b.

(** [os.rename(join(bin_dir_path, f), join(bin_dir_path, f) + ".py")]
    on the entries of the directory: the destination is replaced when
    it exists. *)
Definition rename_py (bin_dir_path f : string) (entries : gmap string string)
    : exn + gmap string string :=
  match entries !! f with
  | Some content => inr (<[f +:+ ".py" := content]> (delete f entries))
  | None => inl (FileNotFoundError (path_join bin_dir_path f))
  end.

(** The loop of lines 44-47 over the listing taken before it starts.
    It stops at the first rename that fails, leaving the directory as
    it is then. *)
Fixpoint rename_loop (bin_dir_path : string) (listing : list string)
    (entries : gmap string string) : option exn * gmap string string :=
  match listing with
  | [] => (None, entries)
  | f :: listing' =>
      if endswith f ".py" then rename_loop bin_dir_path listing' entries
      else
        match rename_py bin_dir_path f entries with
        | inr entries' => rename_loop bin_dir_path listing' entries'
        | inl e => (Some e, entries)
        end
  end.

Section with_platform.
Context `{Platform}.

(** [cmd.run()] of [install_scripts] with [install_dir] the bin
    directory: one script per entry point, under its name. *)
Definition install_scripts (distribution : Distribution)
    (entries : gmap string string) : gmap string string :=
  fold_left
    (fun entries '(name, val) =>
       <[name := script_text distribution name val]> entries)
    (console_scripts distribution) entries.

(** [install_entry_points] *)
Definition install_entry_points (extracted_whl_directory : string)
    (whl : ExtractedWhl) : (exn + list string) * ExtractedWhl :=
  match distributions whl with
  | [] =>
      (inl (RuntimeError
              ("Could not find in Python distribution in directory: "
                 +:+ extracted_whl_directory)), whl)
  | distribution :: _ =>
      let entry_points := console_scripts distribution in
      let bin_dir_path := path_join extracted_whl_directory "bin" in
      match
        match bin whl with
        | NoEntry => inr ∅
        | Directory entries => inr entries
        | RegularFile _ => inl (FileExistsError bin_dir_path)
        end
      with
      | inl e => (inl e, whl)
      | inr entries =>
          let entries := install_scripts distribution entries in
          match rename_loop bin_dir_path (listdir entries) entries with
          | (Some e, entries) =>
              (inl e, {| distributions := distributions whl;
                         bin := Directory entries |})
          | (None, entries) =>
              (inr (map fst entry_points),
               {| distributions := distributions whl;
                  bin := Directory entries |})
          end
      end
  end.

End with_platform.

Definition quoted (s : string) : string := dquote +:+ s +:+ dquote.

(** The [template] literal of [_bazel_py_target_for_entry_point]. *)
Definition template : string :=
  "py_binary(" +:+ newline +:+
  "    name = " +:+ quoted "{rule}" +:+ "," +:+ newline +:+
  "    srcs = [" +:+ quoted "bin/{entry_point}.py" +:+ "]," +:+ newline +:+
  "    deps = [" +:+ quoted ":{pkg_name}" +:+ "]," +:+ newline +:+
  "    visibility = [" +:+ quoted "//visibility:public" +:+ "]," +:+ newline +:+
  "    main = " +:+ quoted "bin/{entry_point}.py" +:+ "," +:+ newline +:+
  ")" +:+ newline.

(** [_bazel_py_target_for_entry_point]; [None] is an exception of
    [str.format]. *)
Definition _bazel_py_target_for_entry_point (pkg_name entry_point_name : string)
    : option string :=
  format template []
    [ ("rule",
       if decide (entry_point_name = pkg_name)
       then "bin-" +:+ entry_point_name else entry_point_name);
      ("entry_point", entry_point_name);
      ("pkg_name", pkg_name) ].

(** [entry_point_build_file_targets] *)
Definition entry_point_build_file_targets (pkg_name : string)
    (entry_point_names : list string) : option string :=
  join newline <$>
    mapM (_bazel_py_target_for_entry_point pkg_name) entry_point_names.

(** *** A small directory to evaluate the definitions on *)
Module example.

Lemma elements_dom_elem (entries : gmap string string) (f : string) :
  f ∈ elements (dom entries) ↔ is_Some (entries !! f).
Proof. by rewrite elem_of_elements, elem_of_dom. Qed.

(** Scripts are a line of Python and the directory is listed in the
    order of the map. *)
Definition platform : Platform := {|
  script_text := λ _ _ val, "# " +:+ val;
  listdir := λ entries, elements (dom entries);
  listdir_NoDup := λ entries, NoDup_elements (dom entries);
  listdir_elem := elements_dom_elem;
|}.

Definition flask : Distribution := {|
  key := "flask";
  version := "2.0.1";
  console_scripts := [("flask", "flask = flask.cli:main")];
|}.

(** An extracted wheel whose [bin] already holds two files. *)
Definition whl : ExtractedWhl := {|
  distributions := [flask];
  bin := Directory (<["helper" := "#!/bin/sh"]>
                      (<["tool.py" := "print(1)"]> ∅));
|}.

(** A directory without metadata. *)
Definition empty : ExtractedWhl := {|
  distributions := [];
  bin := NoEntry;
|}.

End example.

End entry_points.

(** * Properties *)

(** ** Facts about the string primitives *)
Module PyStr_facts.
Import PyStr.

Lemma append_cons (c : ascii) (s t : string) :
  String c s +:+ t = String c (s +:+ t).
Proof. done. Qed.

Lemma append_empty_r (s : string) : s +:+ "" = s.
Proof.
  induction s as [|c s IH]; [done|]. by rewrite append_cons, IH.
Qed.

Lemma append_assoc (s t u : string) : (s +:+ t) +:+ u = s +:+ t +:+ u.
Proof.
  induction s as [|c s IH]; [done|]. by rewrite !append_cons, IH.
Qed.

Lemma length_append (s t : string) :
  String.length (s +:+ t) = (String.length s + String.length t)%nat.
Proof.
  induction s as [|c s IH]; [done|].
  rewrite append_cons. simpl. by rewrite IH.
Qed.

(** Appending the same suffix to two names gives the same name only
    when the names are the same. *)
Lemma append_inj_r (s1 s2 t : string) : s1 +:+ t = s2 +:+ t → s1 = s2.
Proof.
  revert s2. induction s1 as [|c s1 IH]; intros [|c2 s2] E.
  - done.
  - apply (f_equal String.length) in E.
    rewrite !length_append in E. simpl in E. lia.
  - apply (f_equal String.length) in E.
    rewrite !length_append in E. simpl in E. lia.
  - rewrite !append_cons in E. injection E as -> E. f_equal. by apply IH.
Qed.

Lemma endswith_append (s suf : string) : endswith (s +:+ suf) suf = true.
Proof.
  induction s as [|c s IH].
  - change ("" +:+ suf) with suf.
    destruct suf; simpl; [done | by rewrite Ascii.eqb_refl, String.eqb_refl].
  - rewrite append_cons. simpl. rewrite IH. apply orb_true_r.
Qed.

(** *** [split] *)

Fixpoint no_whitespace (s : string) : bool :=
  match s with
  | EmptyString => true
  | String c s' => negb (isspace c) && no_whitespace s'
  end.

Fixpoint strip_whitespace (s : string) : string :=
  match s with
  | EmptyString => ""
  | String c s' =>
      if isspace c then strip_whitespace s' else String c (strip_whitespace s')
  end.

Lemma no_whitespace_append (s t : string) :
  no_whitespace (s +:+ t) = no_whitespace s && no_whitespace t.
Proof.
  induction s as [|c s IH]; [done|].
  rewrite append_cons. simpl. rewrite IH. by rewrite andb_assoc.
Qed.

Lemma append_eq_empty (s t : string) : s +:+ t = "" → s = "" ∧ t = "".
Proof. destruct s; [done|]. by rewrite append_cons. Qed.

(** A text without whitespace is one token, or none when it is empty. *)
Lemma split_from_no_whitespace (cur s : string) :
  no_whitespace s = true →
  split_from cur s = if decide (cur +:+ s = "") then [] else [cur +:+ s].
Proof.
  revert cur. induction s as [|c s IH]; intros cur Hs; simpl.
  - by rewrite append_empty_r.
  - simpl in Hs. apply andb_true_iff in Hs as [Hc Hs].
    apply negb_true_iff in Hc. rewrite Hc, (IH _ Hs).
    by rewrite append_assoc.
Qed.

Lemma split_no_whitespace (s : string) :
  no_whitespace s = true → s ≠ "" → split s = [s].
Proof.
  intros Hs Hne. unfold split. rewrite split_from_no_whitespace by done.
  simpl. by rewrite decide_False.
Qed.

(** A whitespace character separates: the tokens of a text are those
    before it followed by those after it. *)
Lemma split_from_append (cur a b : string) (c : ascii) :
  isspace c = true →
  split_from cur (a +:+ String c b) = split_from cur a ++ split_from "" b.
Proof.
  intros Hc. revert cur. induction a as [|x a IH]; intros cur.
  - simpl. by rewrite Hc.
  - rewrite append_cons. simpl. destruct (isspace x).
    + by rewrite IH, app_assoc.
    + by rewrite IH.
Qed.

Lemma split_append (a b : string) (c : ascii) :
  isspace c = true → split (a +:+ String c b) = split a ++ split b.
Proof. apply split_from_append. Qed.

(** Every token is non-empty and free of whitespace, and the tokens
    together are the text without its whitespace. *)
Lemma split_from_tokens (cur s : string) :
  no_whitespace cur = true →
  Forall (λ t, t ≠ "" ∧ no_whitespace t = true) (split_from cur s)
  ∧ foldr String.append "" (split_from cur s) = cur +:+ strip_whitespace s.
Proof.
  revert cur. induction s as [|c s IH]; intros cur Hcur; simpl.
  - rewrite append_empty_r. case_decide; subst; simpl.
    + done.
    + rewrite append_empty_r. split; [|done]. by repeat constructor.
  - destruct (isspace c) eqn:Hc.
    + destruct (IH "" eq_refl) as [IH1 IH2]. split.
      * apply Forall_app. split; [|done].
        case_decide; by repeat constructor.
      * rewrite foldr_app, IH2. case_decide; subst; done.
    + assert (Hcur' : no_whitespace (cur +:+ String c "") = true).
      { rewrite no_whitespace_append, Hcur. simpl. by rewrite Hc. }
      destruct (IH _ Hcur') as [IH1 IH2]. split; [done|].
      by rewrite IH2, append_assoc.
Qed.

Lemma split_tokens (s : string) :
  Forall (λ t, t ≠ "" ∧ no_whitespace t = true) (split s)
  ∧ foldr String.append "" (split s) = strip_whitespace s.
Proof. apply (split_from_tokens "" s eq_refl). Qed.

(** *** Prefixes *)

Fixpoint prefixes (s : string) : list string :=
  "" :: match s with
        | EmptyString => []
        | String c s' => map (String c) (prefixes s')
        end.

Lemma prefix_prefixes (p s : string) :
  String.prefix p s = true → p ∈ prefixes s.
Proof.
  revert p. induction s as [|c s IH]; intros [|a p] Hp; simpl in *.
  - by left.
  - done.
  - by left.
  - destruct (ascii_dec a c) as [->|]; [|done].
    right. apply list_elem_of_fmap. eauto.
Qed.

Lemma prefix_append (p s : string) : String.prefix p (p +:+ s) = true.
Proof.
  induction p as [|c p IH]; [by destruct s|].
  rewrite append_cons. simpl. by destruct (ascii_dec c c).
Qed.

Lemma prefix_nil (s : string) : String.prefix "" s = true.
Proof. by destruct s. Qed.

Lemma prefix_cons (a b : ascii) (p s : string) :
  String.prefix (String a p) (String b s)
  = bool_decide (a = b) && String.prefix p s.
Proof.
  change (String.prefix (String a p) (String b s))
    with (if ascii_dec a b then String.prefix p s else false).
  destruct (ascii_dec a b);
    [by rewrite bool_decide_eq_true_2 | by rewrite bool_decide_eq_false_2].
Qed.

Lemma prefix_cons_nil (a : ascii) (p : string) :
  String.prefix (String a p) "" = false.
Proof. done. Qed.

End PyStr_facts.

(** ** Facts about the command-line parser *)
Module argparse_facts.
Import PyStr PyStr_facts extract_wheels argparse argparse_run.

Lemma partition_eq_spec (s o e : string) :
  partition_eq s = Some (o, e) → s = o +:+ "=" +:+ e.
Proof.
  revert o. induction s as [|c s IH]; intros o E; simpl in E; [done|].
  destruct (Ascii.eqb c "=") eqn:Hc.
  - apply Ascii.eqb_eq in Hc. by simplify_eq.
  - destruct (partition_eq s) as [[o' e']|]; simplify_eq/=.
    rewrite append_cons. f_equal. by apply IH.
Qed.

Lemma lookup_action_inv (o : string) (a : action) :
  lookup_action option_string_actions o = Some a →
  (o, a) ∈ option_string_actions.
Proof.
  unfold option_string_actions. simpl.
  repeat case_decide; intros; simplify_eq; set_solver.
Qed.

Lemma _parse_optional_O (tok : string) (a : action) (o : string) (e : option string) :
  _parse_optional tok = Some (O_ (Some a) o e) →
  (lookup_action option_string_actions tok = Some a ∧ o = tok ∧ e = None)
  ∨ (∃ e', e = Some e' ∧ tok = o +:+ "=" +:+ e'
           ∧ lookup_action option_string_actions o = Some a)
  ∨ (_get_option_tuples tok = [(a, o, e)] ∧ String.length tok ≠ 1%nat
     ∧ startswith tok "-" = true).
Proof.
  unfold _parse_optional. destruct tok as [|c t]; [done|].
  destruct (Ascii.eqb c "-") eqn:Hc; [|done]. simpl negb. cbv iota.
  apply Ascii.eqb_eq in Hc as ->.
  destruct (lookup_action _ (String "-" t)) as [a'|] eqn:Hl.
  { intros; simplify_eq. by left. }
  case_decide; [done|].
  destruct (partition_eq (String "-" t)) as [[o' e']|] eqn:Hp.
  - cbn [mbind option_bind]. 
    destruct (lookup_action _ o') as [a'|] eqn:Hl'.
    + intros; simplify_eq/=. right; left. exists e'. split_and!; try done.
      by apply partition_eq_spec.
    + cbn. intros E. right; right. split_and!; try done.
      * destruct (_get_option_tuples _) as [|[[??]?] [|??]]; simplify_eq; try done.
        repeat case_match; simplify_eq.
      * simpl. by destruct t.
  - cbn. intros E. right; right. split_and!; try done.
      * destruct (_get_option_tuples _) as [|[[??]?] [|??]]; simplify_eq; try done.
        repeat case_match; simplify_eq.
      * simpl. by destruct t.
Qed.

Lemma omap_singleton {A B} (f : A → option B) (l : list A) (y : B) :
  omap f l = [y] →
  (∃ x, x ∈ l ∧ f x = Some y) ∧ ∀ x y', x ∈ l → f x = Some y' → y' = y.
Proof.
  induction l as [|x l IH]; [done|]. csimpl.
  destruct (f x) as [z|] eqn:Hx.
  - intros E. injection E as -> E. split.
    + exists x. split; [by left | done].
    + intros x' y' [->|Hin]%elem_of_cons Hx'; [congruence|].
      assert (Hy : y' ∈ omap f l) by (apply list_elem_of_omap; eauto).
      rewrite E in Hy. by apply elem_of_nil in Hy.
  - intros E. destruct (IH E) as [(x0 & Hin & Hx0) U]. split.
    + exists x0. split; [by right | done].
    + intros x' y' [->|Hin']%elem_of_cons Hx'; [congruence | eauto].
Qed.

(** An abbreviation with two dashes: the prefix that was matched. *)
Lemma option_tuples_double (tok : string) (a : action) (o : string)
    (e : option string) :
  startswith tok "--" = true →
  _get_option_tuples tok = [(a, o, e)] →
  ∃ p, (tok = p ∨ ∃ e', tok = p +:+ "=" +:+ e')
       ∧ (o, a) ∈ option_string_actions
       ∧ startswith o p = true
       ∧ ∀ o' a', (o', a') ∈ option_string_actions →
                  startswith o' p = true → o' = o.
Proof.
  intros Hdd. unfold _get_option_tuples. rewrite Hdd.
  set (pe := match partition_eq tok with
             | Some (o, e) => (o, Some e)
             | None => (tok, None)
             end).
  assert (Hp : tok = pe.1 ∨ ∃ e', tok = pe.1 +:+ "=" +:+ e').
  { subst pe. destruct (partition_eq tok) as [[p e']|] eqn:E; simpl.
    - right. exists e'. by apply partition_eq_spec.
    - by left. }
  destruct pe as [p ex]. simpl in Hp. intros Hs.
  apply omap_singleton in Hs as [([o0 a0] & Hin & Hf) U].
  destruct (startswith o0 p) eqn:Ho0; simplify_eq.
  exists p. split_and!; try done.
  intros o' a' Hin' Ho'.
  specialize (U (o', a') (a', o', e) Hin'). simpl in U. rewrite Ho' in U.
  specialize (U eq_refl). by simplify_eq.
Qed.


(** With one dash only [-h] can be meant. *)
Lemma option_tuples_single (tok : string) (a : action) (o : string)
    (e : option string) :
  startswith tok "--" = false →
  startswith tok "-" = true →
  String.length tok ≠ 1%nat →
  _get_option_tuples tok = [(a, o, e)] →
  a = help ∧ o = "-h" ∧ startswith tok "-h" = true.
Proof.
  intros Hdd Hd Hlen. unfold _get_option_tuples. rewrite Hdd.
  destruct tok as [|c1 [|c2 t]]; try done.
  unfold startswith in *.
  rewrite !prefix_cons, ?prefix_nil in Hd.
  rewrite !prefix_cons, ?prefix_nil in Hdd.
  apply andb_true_iff in Hd as [Hc1%bool_decide_eq_true _]. subst c1.
  rewrite bool_decide_eq_true_2, andb_true_r in Hdd by done.
  simpl in Hdd. apply bool_decide_eq_false in Hdd.
  rewrite !prefix_cons, ?prefix_nil.
  intros Hs. apply omap_singleton in Hs as [([o0 a0] & Hin & Hf) _].
  assert (Hsub : String.substring 0 2 (String "-" (String c2 t))
                 = String "-" (String c2 "")) by (by destruct t).
  rewrite Hsub in Hf.
  unfold option_string_actions in Hin.
  repeat (apply elem_of_cons in Hin as [Hin|Hin]);
    try (by apply elem_of_nil in Hin);
    injection Hin as -> ->;
    rewrite !prefix_cons, ?prefix_nil, ?prefix_cons_nil in Hf;
    repeat (case_decide || case_bool_decide); simplify_eq/=; done.
Qed.

Ltac table_cases H :=
  unfold option_string_actions in H;
  repeat (apply elem_of_cons in H as [H|H]);
  try (by apply elem_of_nil in H); simplify_eq.

Ltac prefix_cases H :=
  apply prefix_prefixes in H; simpl in H;
  repeat (apply elem_of_cons in H as [H|H]);
  try (by apply elem_of_nil in H); subst.

(** What the class of an argument says about the argument. *)
Definition class_ok (tc : string * arg_class) : Prop :=
  match tc.2 with
  | O_ (Some store_requirements) _ _ => startswith tc.1 "--req" = true
  | O_ (Some store_repo) _ _ => startswith tc.1 "--rep" = true
  | O_ (Some help) _ _ =>
      startswith tc.1 "-h" = true ∨ startswith tc.1 "--h" = true
  | O_ (Some store_true_precompiled) o _ => o = "--precompiled"
  | _ => True
  end.

Lemma repo_in_table : ("--repo", store_repo) ∈ option_string_actions.
Proof. unfold option_string_actions. repeat constructor. Qed.

Lemma requirements_in_table :
  ("--requirements", store_requirements) ∈ option_string_actions.
Proof. unfold option_string_actions. repeat constructor. Qed.

Lemma help_in_table : ("--help", help) ∈ option_string_actions.
Proof. unfold option_string_actions. repeat constructor. Qed.

Lemma _parse_optional_ok (tok : string) (c : arg_class) :
  _parse_optional tok = Some c → class_ok (tok, c).
Proof.
  destruct c as [|[a|] o e|]; try done. intros H.
  apply _parse_optional_O in H
    as [(Hl & Ho & He) | [(e' & He & Htok & Hl) | (Ht & Hlen & Hd)]].
  - subst o e. apply lookup_action_inv in Hl.
    table_cases Hl; unfold class_ok; simpl; auto.
  - subst tok e. apply lookup_action_inv in Hl.
    table_cases Hl; unfold class_ok; simpl; auto.
  - destruct (startswith tok "--") eqn:Hdd.
    + apply option_tuples_double in Ht as (p & Htok & Hin & Hop & U); [|done].
      table_cases Hin; unfold class_ok; simpl; unfold startswith in Hop;
        prefix_cases Hop;
        first
          [ by specialize (U "--repo" store_repo repo_in_table eq_refl)
          | by specialize (U "--help" help help_in_table eq_refl)
          | by specialize (U "--requirements" store_requirements
                             requirements_in_table eq_refl)
          | by destruct Htok as [Ht|[e' Ht]]; subst tok
          | destruct Htok as [Ht|[e' Ht]]; subst tok; auto ].
    + apply option_tuples_single in Ht as (Ha & Ho & Hh); try done.
      subst a o. unfold class_ok. simpl. auto.
Qed.

Lemma classify_ok (argv : list string) (cl : list (string * arg_class)) :
  classify argv = Some cl → map fst cl = argv ∧ Forall class_ok cl.
Proof.
  revert cl. induction argv as [|s argv IH]; intros cl; simpl.
  - intros; simplify_eq. done.
  - case_decide as Hs.
    + intros; simplify_eq. split.
      * simpl. f_equal. rewrite map_map. simpl. apply map_id.
      * constructor; [done|]. apply Forall_fmap, Forall_true. done.
    + destruct (_parse_optional s) as [c|] eqn:Hc; [|done]. simpl.
      destruct (classify argv) as [tl|]; [|done]. simpl.
      intros; simplify_eq. destruct (IH tl eq_refl) as [IH1 IH2]. split.
      * simpl. by rewrite IH1.
      * constructor; [by apply _parse_optional_ok | done].
Qed.

(** An option is missing when it was not stored yet and none of the
    arguments left can stand for it. *)
Definition missing (ns : partial) (cl : list (string * arg_class)) : Prop :=
  (p_requirements ns = None
   ∧ Forall (λ tc, startswith tc.1 "--req" = false) cl)
  ∨ (p_repo ns = None
     ∧ Forall (λ tc, startswith tc.1 "--rep" = false) cl).

Definition asks_help (tok : string) : Prop :=
  startswith tok "-h" = true ∨ startswith tok "--h" = true.

Lemma consume_missing (n : nat) :
  ∀ (cl : list (string * arg_class)) (ns : partial) (extras : bool),
    (length cl ≤ n)%nat →
    Forall class_ok cl →
    missing ns cl →
    ∃ e, consume cl ns extras = inl e
         ∧ (e = SystemExit 2
            ∨ e = SystemExit 0
              ∧ Exists (λ tc, asks_help tc.1) cl).
Proof.
  induction n as [|n IH]; intros cl ns extras Hlen Hok Hmiss.
  - destruct cl; [|simpl in Hlen; lia].
    simpl. destruct Hmiss as [[-> _]|[-> _]]; [eauto|].
    destruct (p_requirements ns); eauto.
  - destruct cl as [|[tok c] rest].
    { simpl. destruct Hmiss as [[-> _]|[-> _]]; [eauto|].
      destruct (p_requirements ns); eauto. }
    simpl in Hlen. apply Forall_cons in Hok as [Hc Hok].
    assert (Hrest : ∀ ns', p_requirements ns' = p_requirements ns →
                           p_repo ns' = p_repo ns → missing ns' rest).
    { intros ns' E1 E2. unfold missing. rewrite E1, E2.
      destruct Hmiss as [[? [_ ?]%Forall_cons]|[? [_ ?]%Forall_cons]]; auto. }
    assert (Hlater : ∀ ns' ex,
              missing ns' rest →
              ∃ e, consume rest ns' ex = inl e
                   ∧ (e = SystemExit 2
                      ∨ e = SystemExit 0
                        ∧ Exists (λ tc, asks_help tc.1) ((tok, c) :: rest))).
    { intros ns' ex Hm.
      destruct (IH rest ns' ex ltac:(lia) Hok Hm) as (e & He & Hcase).
      exists e. split; [done|]. destruct Hcase as [?|[? ?]]; auto. }
    assert (Hlater2 : ∀ v ns' ex rest',
              rest = (v, A_) :: rest' →
              missing ns' rest' →
              ∃ e, consume rest' ns' ex = inl e
                   ∧ (e = SystemExit 2
                      ∨ e = SystemExit 0
                        ∧ Exists (λ tc, asks_help tc.1) ((tok, c) :: rest))).
    { intros v ns' ex rest' -> Hm. simpl in Hlen.
      apply Forall_cons in Hok as [_ Hok].
      destruct (IH rest' ns' ex ltac:(lia) Hok Hm) as (e & He & Hcase).
      exists e. split; [done|]. destruct Hcase as [?|[? ?]]; auto. }
    destruct c as [|[a|] o [ex|]|]; simpl.
    + apply Hlater; auto.
    + destruct a; unfold class_ok in Hc; simpl in Hc.
      * eexists; split; [done|]. unfold flag_with_explicit_arg.
        assert (Exists (λ tc, asks_help tc.1)
                  ((tok, O_ (Some help) o (Some ex)) :: rest))
          by (by left).
        case_decide; [|auto]. destruct ex; [auto|].
        destruct (all_h _); auto.
      * destruct Hmiss as [[Hr HF]|[Hp HF]];
          apply Forall_cons in HF as [Htok HF]; simpl in Htok; [congruence|].
        apply Hlater. right. done.
      * destruct Hmiss as [[Hr HF]|[Hp HF]];
          apply Forall_cons in HF as [Htok HF]; simpl in Htok; [|congruence].
        apply Hlater. left. done.
      * subst o. eexists; split; [done|]. auto.
    + destruct a; unfold class_ok in Hc; simpl in Hc.
      * eexists; split; [done|]. right. split; [auto|]. by left.
      * destruct Hmiss as [[Hr HF]|[Hp HF]];
          apply Forall_cons in HF as [Htok HF]; simpl in Htok; [congruence|].
        destruct rest as [|[v [| |]] rest']; eauto.
        eapply Hlater2; [done|]. right. split; [done|].
        by apply Forall_cons in HF as [_ HF].
      * destruct Hmiss as [[Hr HF]|[Hp HF]];
          apply Forall_cons in HF as [Htok HF]; simpl in Htok; [|congruence].
        destruct rest as [|[v [| |]] rest']; eauto.
        eapply Hlater2; [done|]. left. split; [done|].
        by apply Forall_cons in HF as [_ HF].
      * apply Hlater; auto.
    + apply Hlater; auto.
    + apply Hlater; auto.
    + eauto.
Qed.

(** An invocation that names no requirements file, or no repository,
    is refused by the parser. *)
Lemma parse_args_missing (argv : list string) :
  Forall (λ tok, startswith tok "--req" = false) argv
  ∨ Forall (λ tok, startswith tok "--rep" = false) argv →
  ∃ e, parse_args argv = inl e
       ∧ (e = SystemExit 2
          ∨ e = SystemExit 0 ∧ Exists asks_help argv).
Proof.
  intros Hmiss. unfold parse_args.
  destruct (classify argv) as [cl|] eqn:Hcl; [|eauto].
  apply classify_ok in Hcl as [Hfst Hok]. subst argv.
  destruct (consume_missing (length cl) cl
              {| p_requirements := None; p_repo := None;
                 p_precompiled := false |} false (le_n _) Hok)
    as (e & He & Hcase).
  { destruct Hmiss as [HF|HF]; [left|right]; (split; [done|]);
      by apply Forall_fmap in HF. }
  exists e. split; [done|]. destruct Hcase as [?|[? Hex]]; [auto|].
  right. split; [done|]. by apply Exists_fmap.
Qed.

Lemma value_is_argument (s : string) :
  startswith s "-" = false → s ≠ "--" ∧ _parse_optional s = Some A_.
Proof.
  intros Hs. split; [by intros ->|].
  destruct s as [|c s]; [done|]. unfold startswith in Hs.
  rewrite prefix_cons, prefix_nil, andb_true_r in Hs.
  apply bool_decide_eq_false in Hs.
  unfold _parse_optional.
  destruct (Ascii.eqb c "-") eqn:Hc; [|done].
  apply Ascii.eqb_eq in Hc. by subst.
Qed.

Lemma parse_args_accepts (r p : string) :
  startswith r "-" = false → startswith p "-" = false →
  parse_args ["--requirements"; r; "--repo"; p]
  = inr {| requirements := r; repo := p; precompiled := false |}.
Proof.
  intros [Hr1 Hr2]%value_is_argument [Hp1 Hp2]%value_is_argument.
  unfold parse_args.
  assert (classify ["--requirements"; r; "--repo"; p]
          = Some [ ("--requirements",
                    O_ (Some store_requirements) "--requirements" None);
                   (r, A_);
                   ("--repo", O_ (Some store_repo) "--repo" None);
                   (p, A_) ]) as ->; [|done].
  unfold classify.
  rewrite (decide_False (P := r = "--")) by done.
  rewrite (decide_False (P := p = "--")) by done.
  rewrite Hr2, Hp2. done.
Qed.

End argparse_facts.

(** ** The environment, the fetch and the command line *)
Module extract_wheels_correct.
Import PyStr PyStr_facts extract_wheels argparse argparse_run argparse_facts.

(** *** [configure_reproducible_wheels] *)

Lemma configure_lookup (environ : Environ) (k : string) :
  configure_reproducible_wheels environ !! k =
    if decide (k = "CFLAGS") then
      Some (match environ !! "CFLAGS" with
            | Some flags => flags +:+ " -g0"
            | None => "-g0"
            end)
    else if decide (k = "SOURCE_DATE_EPOCH") then
      Some (default "315532800" (environ !! "SOURCE_DATE_EPOCH"))
    else if decide (k = "PYTHONHASHSEED") then
      Some (default "0" (environ !! "PYTHONHASHSEED"))
    else environ !! k.
Proof.
  unfold configure_reproducible_wheels.
  repeat case_decide; subst;
    destruct (environ !! "CFLAGS") as [flags|] eqn:HC;
    destruct (environ !! "SOURCE_DATE_EPOCH") as [sde|] eqn:HS;
    destruct (environ !! "PYTHONHASHSEED") as [phs|] eqn:HP;
    simplify_map_eq; try done.
Qed.

(** C8: [SOURCE_DATE_EPOCH] and [PYTHONHASHSEED] receive their fixed
    values when they are unset and keep the value they have otherwise;
    [CFLAGS] has [" -g0"] appended to its value, and is created as
    ["-g0"] when it is absent; no other variable changes. *)
Theorem configure_reproducible_wheels_effect (environ : Environ) :
  let environ' := configure_reproducible_wheels environ in
  (environ !! "SOURCE_DATE_EPOCH" = None →
     environ' !! "SOURCE_DATE_EPOCH" = Some "315532800")
  ∧ (∀ v, environ !! "SOURCE_DATE_EPOCH" = Some v →
       environ' !! "SOURCE_DATE_EPOCH" = Some v)
  ∧ (environ !! "PYTHONHASHSEED" = None →
       environ' !! "PYTHONHASHSEED" = Some "0")
  ∧ (∀ v, environ !! "PYTHONHASHSEED" = Some v →
       environ' !! "PYTHONHASHSEED" = Some v)
  ∧ (environ !! "CFLAGS" = None → environ' !! "CFLAGS" = Some "-g0")
  ∧ (∀ flags, environ !! "CFLAGS" = Some flags →
       environ' !! "CFLAGS" = Some (flags +:+ " -g0"))
  ∧ (∀ k, k ≠ "CFLAGS" → k ≠ "SOURCE_DATE_EPOCH" → k ≠ "PYTHONHASHSEED" →
       environ' !! k = environ !! k).
Proof.
  cbv zeta. repeat split.
  - intros E. rewrite configure_lookup. simpl. by rewrite E.
  - intros v E. rewrite configure_lookup. simpl. by rewrite E.
  - intros E. rewrite configure_lookup. simpl. by rewrite E.
  - intros v E. rewrite configure_lookup. simpl. by rewrite E.
  - intros E. rewrite configure_lookup. simpl. by rewrite E.
  - intros flags E. rewrite configure_lookup. simpl. by rewrite E.
  - intros k H1 H2 H3. rewrite configure_lookup.
    repeat case_decide; congruence.
Qed.

(** C1, as stated, fails: started from the empty environment, one run
    leaves [CFLAGS] as ["-g0"] and two runs leave it as ["-g0 -g0"]. *)
Lemma configure_twice_differs :
  configure_reproducible_wheels ∅ !! "CFLAGS" = Some "-g0"
  ∧ configure_reproducible_wheels (configure_reproducible_wheels ∅)
      !! "CFLAGS" = Some "-g0 -g0"
  ∧ configure_reproducible_wheels (configure_reproducible_wheels ∅)
      ≠ configure_reproducible_wheels ∅.
Proof.
  assert (E1 : configure_reproducible_wheels ∅ !! "CFLAGS"
               = Some "-g0") by (by rewrite configure_lookup).
  assert (E2 : configure_reproducible_wheels
                 (configure_reproducible_wheels (∅ : Environ)) !! "CFLAGS"
               = Some "-g0 -g0")
    by (rewrite configure_lookup; simpl; by rewrite E1).
  split_and!; [done | done |].
  intros E. rewrite E in E2. rewrite E1 in E2. discriminate.
Qed.

(** C1, amended: a second run changes nothing but [CFLAGS]:
    [SOURCE_DATE_EPOCH], [PYTHONHASHSEED] and every variable other
    than [CFLAGS] have after two runs the value they have after one;
    [CFLAGS] after two runs is its value after one run followed by
    [" -g0"]. *)
Theorem configure_twice (environ : Environ) :
  let once := configure_reproducible_wheels environ in
  let twice := configure_reproducible_wheels once in
  twice !! "SOURCE_DATE_EPOCH" = once !! "SOURCE_DATE_EPOCH"
  ∧ twice !! "PYTHONHASHSEED" = once !! "PYTHONHASHSEED"
  ∧ delete "CFLAGS" twice = delete "CFLAGS" once
  ∧ twice !! "CFLAGS" = (λ flags, flags +:+ " -g0") <$> once !! "CFLAGS".
Proof.
  cbv zeta.
  assert (F : ∀ k, k ≠ "CFLAGS" →
            configure_reproducible_wheels
              (configure_reproducible_wheels environ) !! k
            = configure_reproducible_wheels environ !! k).
  { intros k Hk. rewrite (configure_lookup (configure_reproducible_wheels _)).
    rewrite !configure_lookup. simpl.
    repeat case_decide; subst; try congruence; done. }
  split_and!.
  - by apply F.
  - by apply F.
  - apply map_eq. intros k. destruct (decide (k = "CFLAGS")) as [->|Hk].
    + by rewrite !lookup_delete_eq.
    + rewrite !lookup_delete_ne by done. by apply F.
  - rewrite (configure_lookup (configure_reproducible_wheels _)).
    rewrite !configure_lookup. simpl. done.
Qed.

(** *** [_fetch_packages_parallel] *)

Section fetch.
Context `{Platform}.

Lemma format_name_specifier (n s : string) :
  format "{}{}" [n; s] [] = Some (n +:+ s).
Proof. unfold format. simpl. by rewrite append_empty_r. Qed.

(** The command of [_dl_wheel]. *)
Definition dl_cmd (additional_wheel_opts : list string) (req : Requirement)
    : list string :=
  [sys_executable; "-m"; "pip"; "wheel"; "--no-deps"]
    ++ additional_wheel_opts ++ [name req +:+ specifier req].

Lemma _dl_wheel_run (req : Requirement) (opts : list string) :
  _dl_wheel req opts = subprocess_run (dl_cmd opts req).
Proof. unfold _dl_wheel. by rewrite format_name_specifier. Qed.

Lemma run_children_args n cmds env fs :
  map args (run_children n cmds env fs).1 = cmds.
Proof.
  revert n fs. induction cmds as [|cmd cmds IH]; intros n fs; simpl; [done|].
  specialize (IH (S n) (files_after (run_process n cmd env fs))).
  destruct (run_children _ cmds _ _) as [procs fs']. simpl in *. by rewrite IH.
Qed.

Lemma run_children_length n cmds env fs :
  length (run_children n cmds env fs).1 = length cmds.
Proof. by rewrite <-(run_children_args n cmds env fs) at 2; rewrite length_map. Qed.

(** The pool runs every command, whatever the children return. *)
Lemma executor_map_dl_wheel (reqs : list Requirement) (opts : list string)
    (start : nat) (w : World) :
  executor_map _dl_wheel reqs (map (λ _, opts) (seq start (length reqs))) w
  = let cmds := map (dl_cmd opts) reqs in
    let r := run_children (length (spawned w)) cmds (environ w) (files w) in
    (inr (map inr r.1),
     {| environ := environ w; files := r.2;
        spawned := spawned w ++ cmds; written := written w |}).
Proof.
  revert start w. induction reqs as [|rq reqs IH]; intros start w;
    cbn [executor_map map seq length run_children fst snd].
  - unfold ret. rewrite app_nil_r. by destruct w.
  - rewrite _dl_wheel_run. unfold subprocess_run at 1.
    rewrite IH. cbn [environ files spawned written].
    rewrite length_app. cbn [length].
    replace (length (spawned w) + 1)%nat with (S (length (spawned w))) by lia.
    destruct (run_children _ _ _ _) as [procs fs']. simpl.
    by rewrite <-app_assoc.
Qed.

Lemma results_inr {C} (cs : list C) : results (map inr cs) = inr cs.
Proof. induction cs as [|c cs IH]; simpl; [done | by rewrite IH]. Qed.

(** What a call of [_fetch_packages_parallel] does when the
    requirements file can be read and parsed. *)
Lemma _fetch_packages_parallel_run (path content : string)
    (parsed_reqs : list InstallRequirement) (w : World) :
  files w !! path = Some content →
  parse_requirements path (files w) = inr parsed_reqs →
  _fetch_packages_parallel path w
  = let cmds :=
      map (dl_cmd (wheel_cmd_opts_of (readlines content)))
          (map req parsed_reqs) in
    let r := run_children (length (spawned w)) cmds (environ w) (files w) in
    (match filter (λ proc, returncode proc ≠ 0) r.1 with
     | [] => inr ()
     | failed_procs => inl (RuntimeError failed_procs)
     end,
     {| environ := environ w; files := r.2;
        spawned := spawned w ++ cmds; written := written w |}).
Proof.
  intros Hfile Hparse. unfold _fetch_packages_parallel, bind, read_file.
  rewrite Hfile, Hparse.
  rewrite <-(length_map req parsed_reqs).
  rewrite executor_map_dl_wheel. cbv zeta.
  unfold lift. rewrite results_inr.
  destruct (filter _ _); done.
Qed.

(** The accumulated options are the tokens of the option lines, in the
    order of the file. *)
Lemma wheel_cmd_opts_of_concat (lines : list string) :
  wheel_cmd_opts_of lines
  = concat (map split (filter (λ l, startswith l "--" = true) lines)).
Proof.
  unfold wheel_cmd_opts_of.
  enough (G : ∀ acc,
            fold_left
              (λ wheel_cmd_opts l,
                 if startswith l "--" then wheel_cmd_opts ++ split l
                 else wheel_cmd_opts) lines acc
            = acc ++ concat (map split
                               (filter (λ l, startswith l "--" = true) lines)))
    by apply (G []).
  induction lines as [|l lines IH]; intros acc; simpl.
  - by rewrite app_nil_r.
  - rewrite IH. rewrite filter_cons.
    destruct (startswith l "--") eqn:E.
    + rewrite decide_True by done. simpl. by rewrite <-app_assoc.
    + rewrite decide_False by done. done.
Qed.

(** C2: when the requirements file is read and parsed, every fetch
    child runs to its end whatever the others return (one completed
    process per parsed requirement, all of them among the children of
    the program afterwards); the call then raises if and only if some
    child returned a non-zero exit code; the exception it raises carries
    exactly the completed processes whose exit code is not zero; and
    when every exit code is zero the call returns normally. *)
Theorem fetch_parallel_outcome (path content : string)
    (parsed_reqs : list InstallRequirement) (w : World) :
  files w !! path = Some content →
  parse_requirements path (files w) = inr parsed_reqs →
  let opts := wheel_cmd_opts_of (readlines content) in
  let cmds :=
    map (λ r, [sys_executable; "-m"; "pip"; "wheel"; "--no-deps"]
                ++ opts ++ [name (req r) +:+ specifier (req r)])
        parsed_reqs in
  let completed :=
    (run_children (length (spawned w)) cmds (environ w) (files w)).1 in
  let failed := filter (λ proc, returncode proc ≠ 0) completed in
  let result := _fetch_packages_parallel path w in
  length completed = length parsed_reqs
  ∧ spawned result.2 = spawned w ++ map args completed
  ∧ ((∃ e, result.1 = inl e)
     ↔ ∃ proc, proc ∈ completed ∧ returncode proc ≠ 0)
  ∧ (∀ e, result.1 = inl e →
       e = RuntimeError failed
       ∧ ∀ proc, proc ∈ failed ↔ proc ∈ completed ∧ returncode proc ≠ 0)
  ∧ ((∀ proc, proc ∈ completed → returncode proc = 0) → result.1 = inr ()).
Proof.
  intros Hfile Hparse. cbv zeta.
  rewrite (_fetch_packages_parallel_run _ _ _ _ Hfile Hparse). cbv zeta.
  rewrite map_map. unfold dl_cmd.
  set (cmds := map _ parsed_reqs).
  set (completed := (run_children _ cmds _ _).1).
  cbn [fst snd spawned].
  assert (Hmem : ∀ proc, proc ∈ filter (λ proc, returncode proc ≠ 0) completed
                         ↔ proc ∈ completed ∧ returncode proc ≠ 0).
  { intros proc. rewrite list_elem_of_filter. tauto. }
  split_and!.
  - subst completed cmds. by rewrite run_children_length, length_map.
  - subst completed. by rewrite run_children_args.
  - destruct (filter _ completed) as [|p ps] eqn:E.
    + split; [intros [e He]; discriminate|].
      intros [proc Hproc]. apply Hmem in Hproc. by apply elem_of_nil in Hproc.
    + split; [|by eauto]. intros _. exists p. apply Hmem. by left.
  - intros e He. split; [|done].
    destruct (filter _ completed) as [|p ps]; congruence.
  - intros Hzero. destruct (filter _ completed) as [|p ps] eqn:E; [done|].
    destruct (Hmem p) as [Hp _].
    destruct Hp as [Hin Hne]; [by left|]. by apply Hzero in Hin.
Qed.

(** C3: in parallel mode the tokens of every line that starts with a
    double dash, split at whitespace, are accumulated in file order into
    one option list, and the children started are, in order, one per
    parsed requirement, each with the command
    [python -m pip wheel --no-deps], then the option list, then the
    name of the requirement followed by its specifier. *)
Theorem fetch_parallel_commands (path content : string)
    (parsed_reqs : list InstallRequirement) (w : World) :
  files w !! path = Some content →
  parse_requirements path (files w) = inr parsed_reqs →
  let lines := readlines content in
  let opts := wheel_cmd_opts_of lines in
  let w' := (_fetch_packages_parallel path w).2 in
  opts = concat (map split (filter (λ l, startswith l "--" = true) lines))
  ∧ spawned w'
    = spawned w
        ++ map (λ r, [sys_executable; "-m"; "pip"; "wheel"; "--no-deps"]
                       ++ opts ++ [name (req r) +:+ specifier (req r)])
               parsed_reqs
  ∧ length (spawned w') = (length (spawned w) + length parsed_reqs)%nat.
Proof.
  intros Hfile Hparse. cbv zeta.
  rewrite (_fetch_packages_parallel_run _ _ _ _ Hfile Hparse). cbv zeta.
  cbn [snd spawned]. rewrite map_map. unfold dl_cmd.
  split_and!.
  - apply wheel_cmd_opts_of_concat.
  - done.
  - by rewrite length_app, length_map.
Qed.

End fetch.

(** *** [main] *)

Section main_facts.
Context `{Platform}.

(** The world once [configure_reproducible_wheels] has run. *)
Definition configured (w : World) : World :=
  {| environ := configure_reproducible_wheels (environ w);
     files := files w; spawned := spawned w; written := written w |}.

Lemma main_parse_error (argv : list string) (e : exn) (w : World) :
  parse_args argv = inl e → main argv w = (inl e, configured w).
Proof. intros Hp. unfold main, bind, lift. by rewrite Hp. Qed.

(** What neither the wheel extraction nor a loop over it changes. *)
Definition same_children (w w' : World) : Prop :=
  spawned w' = spawned w ∧ written w' = written w.

Lemma target_same_children (repo : string) (extras : Extras) (whl : string)
    (w : World) :
  same_children w (target repo extras whl w).2.
Proof.
  unfold target, bind.
  destruct (extract_wheel whl extras (files w)) as [[e|sfx] fs]; done.
Qed.

Lemma for_each_same_children {A B} (f : A → M B) (xs : list A) :
  (∀ x w, same_children w (f x w).2) →
  ∀ w, same_children w (for_each f xs w).2.
Proof.
  intros Hf. induction xs as [|x xs IH]; intros w; [done|].
  cbn [for_each]. unfold bind at 1.
  pose proof (Hf x w) as [F1 F2].
  destruct (f x w) as [[e|b] w1]; [done|]. unfold bind at 1.
  pose proof (IH w1) as [G1 G2].
  destruct (for_each f xs w1) as [[e|bs] w2]; simpl in *;
    split; congruence.
Qed.

Lemma main_sequential_spawned (argv : list string) (args : Namespace)
    (w : World) :
  parse_args argv = inr args → precompiled args = false →
  spawned (main argv w).2
  = spawned w ++ [[sys_executable; "-m"; "pip"; "wheel"; "-r";
                    requirements args]].
Proof.
  intros Hp Hpre. unfold main, bind at 1, bind at 1, lift. rewrite Hp, Hpre.
  unfold bind at 1, bind at 1, check_output. cbn [environ files spawned written].
  case_decide; [|done]. unfold ret at 1.
  unfold bind at 1.
  destruct (parse_extras _ _) as [e|extras]; [done|].
  unfold bind at 1, bind at 1.
  match goal with |- context [for_each ?f ?l ?w0] =>
    pose proof (for_each_same_children f l
                  (target_same_children (repo args) extras) w0) as [F1 F2];
    destruct (for_each f l w0) as [[e|targets] w2] end; [done|].
  unfold write_file. simpl. done.
Qed.

(** C7: in sequential mode [main] starts one child, the resolver on the
    whole requirements file, and has its result before it goes on; when
    the child returns a non-zero exit code [main] ends there with the
    [CalledProcessError] that carries the exit code, the command and the
    output of the child: no second child is started and
    [requirements.bzl] is not written. *)
Theorem main_sequential_failure (argv : list string) (args : Namespace)
    (w : World) :
  parse_args argv = inr args →
  precompiled args = false →
  let wheel_cmd :=
    [sys_executable; "-m"; "pip"; "wheel"; "-r"; requirements args] in
  let o :=
    run_process (length (spawned w)) wheel_cmd
      (configure_reproducible_wheels (environ w)) (files w) in
  exit_status o ≠ 0 →
  main argv w
  = (inl (CalledProcessError (exit_status o) wheel_cmd (stdout o)),
     {| environ := configure_reproducible_wheels (environ w);
        files := files_after o;
        spawned := spawned w ++ [wheel_cmd];
        written := written w |}).
Proof.
  intros Hp Hpre wheel_cmd o Ho.
  unfold main, bind at 1, bind at 1, lift. rewrite Hp, Hpre.
  unfold bind at 1, bind at 1, check_output.
  cbn [environ files spawned written]. fold wheel_cmd. fold o.
  by rewrite decide_False.
Qed.

(** C9, amended: both [--requirements] and [--repo] are required: when
    no argument can stand for one of them [main] ends with the exit of
    the parser, status 2, or status 0 when an argument asks for help,
    having started no child and written no file.  The value of [--repo]
    is not checked: for any two values that do not start with a dash,
    whether or not the second starts with [@], [main] goes on to start
    the resolver. *)
Theorem main_requires_options (argv : list string) (w : World) :
  (Forall (λ tok, startswith tok "--req" = false) argv
   ∨ Forall (λ tok, startswith tok "--rep" = false) argv →
   ∃ e, (main argv w).1 = inl e
        ∧ (e = SystemExit 2
           ∨ e = SystemExit 0
             ∧ Exists (λ tok, startswith tok "-h" = true
                              ∨ startswith tok "--h" = true) argv)
        ∧ spawned (main argv w).2 = spawned w
        ∧ written (main argv w).2 = written w
        ∧ files (main argv w).2 = files w)
  ∧ (∀ r p, argv = ["--requirements"; r; "--repo"; p] →
            startswith r "-" = false → startswith p "-" = false →
            spawned (main argv w).2
            = spawned w ++ [[sys_executable; "-m"; "pip"; "wheel"; "-r"; r]]).
Proof.
  split.
  - intros Hmiss. apply parse_args_missing in Hmiss as (e & He & Hcase).
    exists e. rewrite (main_parse_error _ _ _ He). done.
  - intros r p -> Hr Hp.
    by rewrite (main_sequential_spawned _ _ _ (parse_args_accepts r p Hr Hp)).
Qed.

End main_facts.

(** *** The example run *)

Lemma fetch_parallel_outcome_example :
  (@_fetch_packages_parallel example.platform "requirements.txt"
     example.world).1
  = inl (RuntimeError
           [ {| args := ["python3"; "-m"; "pip"; "wheel"; "--no-deps";
                         "--find-links"; "/wheels"; "click==8.0.0"];
                returncode := 1 |} ]).
Proof.
  destruct (@fetch_parallel_outcome example.platform "requirements.txt"
              example.requirements_txt
              [ {| req := example.flask |}; {| req := example.click |} ]
              example.world eq_refl eq_refl)
    as (_ & _ & Hiff & Hfail & _).
  destruct (@_fetch_packages_parallel example.platform "requirements.txt"
              example.world).1 as [e|[]] eqn:E.
  - destruct (Hfail e eq_refl) as [He _]. rewrite He. vm_compute. reflexivity.
  - exfalso. destruct (proj2 Hiff) as [e He]; [|discriminate].
    eexists. split; [vm_compute; right; left | vm_compute; discriminate].
Defined.

Lemma fetch_parallel_commands_example :
  spawned (@_fetch_packages_parallel example.platform "requirements.txt"
             example.world).2
  = [ ["python3"; "-m"; "pip"; "wheel"; "--no-deps";
       "--find-links"; "/wheels"; "flask==2.0.1"];
      ["python3"; "-m"; "pip"; "wheel"; "--no-deps";
       "--find-links"; "/wheels"; "click==8.0.0"] ].
Proof.
  destruct (@fetch_parallel_commands example.platform "requirements.txt"
              example.requirements_txt
              [ {| req := example.flask |}; {| req := example.click |} ]
              example.world eq_refl eq_refl)
    as (_ & Hsp & _).
  rewrite Hsp. vm_compute. reflexivity.
Defined.

Lemma main_sequential_failure_example :
  (@main example.platform
     ["--requirements"; "broken.txt"; "--repo"; "@pypi"] example.world).1
  = inl (CalledProcessError 1
           ["python3"; "-m"; "pip"; "wheel"; "-r"; "broken.txt"]
           "ERROR: No matching distribution found")
  ∧ spawned (@main example.platform
               ["--requirements"; "broken.txt"; "--repo"; "@pypi"]
               example.world).2
    = [["python3"; "-m"; "pip"; "wheel"; "-r"; "broken.txt"]]
  ∧ written (@main example.platform
               ["--requirements"; "broken.txt"; "--repo"; "@pypi"]
               example.world).2 = [].
Proof.
  rewrite (@main_sequential_failure example.platform
             ["--requirements"; "broken.txt"; "--repo"; "@pypi"]
             {| requirements := "broken.txt"; repo := "@pypi";
                precompiled := false |}
             example.world eq_refl eq_refl).
  - vm_compute. done.
  - vm_compute. discriminate.
Defined.

Lemma main_requires_options_example :
  (@main example.platform ["--repo"; "@pypi"] example.world).1
  = inl (SystemExit 2)
  ∧ spawned (@main example.platform ["--repo"; "@pypi"] example.world).2 = [].
Proof.
  destruct (@main_requires_options example.platform ["--repo"; "@pypi"]
              example.world) as [Hmiss _].
  destruct Hmiss as (e & He & Hcase & Hsp & _).
  { left. repeat constructor. }
  rewrite He, Hsp. split; [|done].
  destruct Hcase as [->|[_ Hh]]; [done|].
  exfalso. apply Exists_cons in Hh as [[Hh|Hh]|Hh]; try discriminate.
  apply Exists_cons in Hh as [[Hh|Hh]|Hh]; try discriminate.
  by apply Exists_nil in Hh.
Defined.

(** C9, as stated, fails: a repository name without the [@] is
    accepted, the resolver is started and [requirements.bzl] written. *)
Lemma main_accepts_repo_without_sigil :
  startswith "pypi" "@" = false
  ∧ (@main example.platform
       ["--requirements"; "requirements.txt"; "--repo"; "pypi"]
       example.world).1 = inr ()
  ∧ spawned (@main example.platform
               ["--requirements"; "requirements.txt"; "--repo"; "pypi"]
               example.world).2
    = [["python3"; "-m"; "pip"; "wheel"; "-r"; "requirements.txt"]]
  ∧ written (@main example.platform
               ["--requirements"; "requirements.txt"; "--repo"; "pypi"]
               example.world).2 = ["requirements.bzl"].
Proof. vm_compute. done. Qed.

End extract_wheels_correct.

(** ** Entry points *)
Module entry_points_correct.
Import PyStr PyStr_facts entry_points.

(** *** Target generation *)

Lemma bin_prefix_differs (s : string) : "bin-" +:+ s ≠ s.
Proof.
  intros E. apply (f_equal String.length) in E.
  rewrite length_append in E. simpl in E. lia.
Qed.

(** The declaration with its three fields filled in. *)
Definition py_binary (rule entry_point pkg_name : string) : string :=
  "py_binary(" +:+ newline +:+
  "    name = " +:+ dquote +:+ rule +:+ dquote +:+ "," +:+ newline +:+
  "    srcs = [" +:+ dquote +:+ "bin/" +:+ entry_point +:+ ".py"
    +:+ dquote +:+ "]," +:+ newline +:+
  "    deps = [" +:+ dquote +:+ ":" +:+ pkg_name +:+ dquote +:+ "],"
    +:+ newline +:+
  "    visibility = [" +:+ dquote +:+ "//visibility:public" +:+ dquote
    +:+ "]," +:+ newline +:+
  "    main = " +:+ dquote +:+ "bin/" +:+ entry_point +:+ ".py"
    +:+ dquote +:+ "," +:+ newline +:+
  ")" +:+ newline.

(** [str.format] fills the template without an exception, whatever the
    two names hold. *)
Lemma _bazel_py_target_for_entry_point_text
    (pkg_name entry_point_name : string) :
  _bazel_py_target_for_entry_point pkg_name entry_point_name
  = Some (py_binary
            (if decide (entry_point_name = pkg_name)
             then "bin-" +:+ entry_point_name else entry_point_name)
            entry_point_name pkg_name).
Proof.
  unfold _bazel_py_target_for_entry_point.
  generalize (if decide (entry_point_name = pkg_name)
              then "bin-" +:+ entry_point_name else entry_point_name).
  intros rule. vm_compute. reflexivity.
Qed.

(** C5: the declaration generated for an entry point of a package is
    the [py_binary] text below, whose name is ["bin-"] followed by the
    entry-point name exactly when the entry-point name is the package
    name and the entry-point name itself otherwise; in both cases its
    source and its main are [bin/<entry point>.py], its only dependency
    is the library target [:<package>] and it is publicly visible. *)
Theorem entry_point_target (pkg_name entry_point_name : string) :
  let rule :=
    if decide (entry_point_name = pkg_name)
    then "bin-" +:+ entry_point_name else entry_point_name in
  _bazel_py_target_for_entry_point pkg_name entry_point_name
  = Some
      ("py_binary(" +:+ newline +:+
       "    name = " +:+ dquote +:+ rule +:+ dquote +:+ "," +:+ newline +:+
       "    srcs = [" +:+ dquote +:+ "bin/" +:+ entry_point_name +:+ ".py"
         +:+ dquote +:+ "]," +:+ newline +:+
       "    deps = [" +:+ dquote +:+ ":" +:+ pkg_name +:+ dquote +:+ "],"
         +:+ newline +:+
       "    visibility = [" +:+ dquote +:+ "//visibility:public" +:+ dquote
         +:+ "]," +:+ newline +:+
       "    main = " +:+ dquote +:+ "bin/" +:+ entry_point_name +:+ ".py"
         +:+ dquote +:+ "," +:+ newline +:+
       ")" +:+ newline)
  ∧ (rule = "bin-" +:+ entry_point_name ↔ entry_point_name = pkg_name)
  ∧ (rule = entry_point_name ↔ entry_point_name ≠ pkg_name).
Proof.
  cbv zeta. split_and!.
  - apply _bazel_py_target_for_entry_point_text.
  - case_decide; split; try done.
    intros E. by apply eq_sym, bin_prefix_differs in E.
  - case_decide; split; try done. intros E. by apply bin_prefix_differs in E.
Qed.

(** X14: the targets of a package are the declarations of its entry
    points, in the order of the names, with one newline between two
    declarations; [str.format] never raises, whatever characters the
    names hold. *)
Lemma entry_point_build_file_targets_text (pkg_name : string)
    (entry_point_names : list string) :
  entry_point_build_file_targets pkg_name entry_point_names
  = Some (join newline
            (map (λ n, py_binary
                         (if decide (n = pkg_name) then "bin-" +:+ n else n)
                         n pkg_name)
                 entry_point_names)).
Proof.
  unfold entry_point_build_file_targets.
  enough (mapM (_bazel_py_target_for_entry_point pkg_name) entry_point_names
          = Some (map (λ n, py_binary
                              (if decide (n = pkg_name)
                               then "bin-" +:+ n else n) n pkg_name)
                      entry_point_names)) as -> by done.
  induction entry_point_names as [|n ns IH]; [done|].
  cbn [mapM]. by rewrite _bazel_py_target_for_entry_point_text, IH.
Qed.

(** *** Installation *)

Section install.
Context `{Platform}.

Lemma not_py_append (f k : string) :
  endswith k ".py" = false → f +:+ ".py" ≠ k.
Proof. intros Hk <-. by rewrite endswith_append in Hk. Qed.

Lemma rename_py_lookup (bin_dir_path f : string)
    (entries entries' : gmap string string) (k : string) :
  endswith f ".py" = false →
  rename_py bin_dir_path f entries = inr entries' →
  entries' !! k
  = if decide (k = f +:+ ".py") then entries !! f
    else if decide (k = f) then None else entries !! k.
Proof.
  intros Hf. unfold rename_py.
  destruct (entries !! f) as [c|] eqn:Ef; [|done]. intros; simplify_eq.
  case_decide as Hk; [subst; by rewrite lookup_insert_eq|].
  rewrite lookup_insert_ne by done.
  case_decide; [subst; by rewrite lookup_delete_eq|].
  by rewrite lookup_delete_ne.
Qed.

(** A name with the suffix is touched only by the rename of the name
    without it. *)
Lemma rename_loop_keeps_py (bin_dir_path : string) (listing : list string)
    (entries : gmap string string) (k : string) :
  endswith k ".py" = true →
  (∀ f, f ∈ listing → endswith f ".py" = false → f +:+ ".py" ≠ k) →
  (rename_loop bin_dir_path listing entries).2 !! k = entries !! k.
Proof.
  intros Hk. revert entries.
  induction listing as [|f listing IH]; intros entries Hne; [done|].
  simpl. destruct (endswith f ".py") eqn:Hf.
  { apply IH. intros g Hg. apply Hne. by right. }
  destruct (rename_py bin_dir_path f entries) as [e|entries1] eqn:Er; [done|].
  rewrite IH by (intros g Hg; apply Hne; by right).
  rewrite (rename_py_lookup _ _ _ _ k Hf Er).
  rewrite decide_False by (intros ->; by eapply Hne; [left|..]).
  rewrite decide_False by (intros ->; congruence). done.
Qed.

(** A name without the suffix that is absent stays absent. *)
Lemma rename_loop_keeps_absent (bin_dir_path : string) (listing : list string)
    (entries : gmap string string) (k : string) :
  endswith k ".py" = false →
  entries !! k = None →
  (rename_loop bin_dir_path listing entries).2 !! k = None.
Proof.
  intros Hk. revert entries.
  induction listing as [|f listing IH]; intros entries Ek; [done|].
  simpl. destruct (endswith f ".py") eqn:Hf; [by apply IH|].
  destruct (rename_py bin_dir_path f entries) as [e|entries1] eqn:Er; [done|].
  apply IH. rewrite (rename_py_lookup _ _ _ _ k Hf Er).
  rewrite decide_False by (by apply not_eq_sym, not_py_append).
  by case_decide.
Qed.

(** Every rename of the loop finds its file. *)
Lemma rename_loop_succeeds (bin_dir_path : string) (listing : list string)
    (entries : gmap string string) :
  NoDup listing →
  (∀ f, f ∈ listing → is_Some (entries !! f)) →
  (rename_loop bin_dir_path listing entries).1 = None.
Proof.
  intros Hnd. revert entries.
  induction Hnd as [|f listing Hf Hnd IH]; intros entries Hin; [done|].
  simpl. destruct (endswith f ".py") eqn:Hpy.
  { apply IH. intros g Hg. apply Hin. by right. }
  destruct (Hin f ltac:(by left)) as [c Ec].
  unfold rename_py. rewrite Ec. apply IH. intros g Hg.
  destruct (decide (g = f +:+ ".py")) as [->|Hne];
    [by rewrite lookup_insert_eq|].
  rewrite lookup_insert_ne, lookup_delete_ne by (done || congruence).
  apply Hin. by right.
Qed.

(** A listed file without the suffix ends under the name with the
    suffix, with its content, and its old name is gone. *)
Lemma rename_loop_renames (bin_dir_path : string) (listing : list string)
    (entries : gmap string string) (f c : string) :
  NoDup listing →
  (rename_loop bin_dir_path listing entries).1 = None →
  f ∈ listing →
  endswith f ".py" = false →
  entries !! f = Some c →
  (rename_loop bin_dir_path listing entries).2 !! (f +:+ ".py") = Some c
  ∧ (rename_loop bin_dir_path listing entries).2 !! f = None.
Proof.
  intros Hnd. revert entries.
  induction Hnd as [|g listing Hg Hnd IH]; intros entries Hok Hin Hf Ef.
  { by apply elem_of_nil in Hin. }
  simpl in *. destruct (endswith g ".py") eqn:Hpy.
  { apply IH; try done. apply elem_of_cons in Hin as [->|]; [congruence|done]. }
  destruct (rename_py bin_dir_path g entries) as [e|entries1] eqn:Er; [done|].
  pose proof (rename_py_lookup _ _ _ _ (f +:+ ".py") Hpy Er) as Lpy.
  pose proof (rename_py_lookup _ _ _ _ f Hpy Er) as Lf.
  rewrite (decide_False (P := f = g +:+ ".py")) in Lf
    by (by apply not_eq_sym, not_py_append).
  destruct (decide (f = g)) as [->|Hne].
  - rewrite decide_True in Lpy by done. split.
    + rewrite rename_loop_keeps_py; [congruence | apply endswith_append |].
      intros g' Hg' _ E. apply append_inj_r in E. by subst.
    + by apply rename_loop_keeps_absent.
  - apply elem_of_cons in Hin as [->|Hin]; [done|].
    apply IH; try done. by rewrite Lf.
Qed.

(** When every name is listed, only names with the suffix are left. *)
Lemma rename_loop_all_py (bin_dir_path : string) (listing : list string)
    (entries : gmap string string) :
  (rename_loop bin_dir_path listing entries).1 = None →
  (∀ k, is_Some (entries !! k) → k ∈ listing ∨ endswith k ".py" = true) →
  ∀ k, is_Some ((rename_loop bin_dir_path listing entries).2 !! k) →
       endswith k ".py" = true.
Proof.
  revert entries.
  induction listing as [|f listing IH]; intros entries Hok Hall k Hk.
  { simpl in Hk. destruct (Hall k Hk) as [Hin|]; [|done].
    by apply elem_of_nil in Hin. }
  simpl in *. destruct (endswith f ".py") eqn:Hpy.
  { apply (IH entries); try done. intros k' Hk'.
    destruct (Hall k' Hk') as [[->|]%elem_of_cons|]; auto. }
  destruct (rename_py bin_dir_path f entries) as [e|entries1] eqn:Er; [done|].
  apply (IH entries1); try done. intros k' Hk'.
  rewrite (rename_py_lookup _ _ _ _ k' Hpy Er) in Hk'.
  case_decide; [subst; right; apply endswith_append|].
  case_decide; [by destruct Hk'|].
  destruct (Hall k' Hk') as [[->|]%elem_of_cons|]; auto.
Qed.

Lemma install_scripts_keeps (distribution : Distribution)
    (entries : gmap string string) (k : string) :
  is_Some (entries !! k) →
  is_Some (install_scripts distribution entries !! k).
Proof.
  unfold install_scripts. generalize (console_scripts distribution).
  intros eps. revert entries.
  induction eps as [|[n v] eps IH]; intros entries Hk; [done|].
  simpl. apply IH. destruct (decide (k = n)) as [->|];
    [by rewrite lookup_insert_eq | by rewrite lookup_insert_ne].
Qed.

Lemma install_scripts_other (distribution : Distribution)
    (entries : gmap string string) (k : string) :
  k ∉ map fst (console_scripts distribution) →
  install_scripts distribution entries !! k = entries !! k.
Proof.
  unfold install_scripts. generalize (console_scripts distribution).
  intros eps. revert entries.
  induction eps as [|[n v] eps IH]; intros entries Hk; [done|].
  simpl in *. apply not_elem_of_cons in Hk as [Hn Hk].
  rewrite IH by done. by rewrite lookup_insert_ne.
Qed.

(** The directory entries with which a call works: none when [bin]
    does not exist yet. *)
Definition bin_entries (whl : ExtractedWhl) : option (gmap string string) :=
  match bin whl with
  | NoEntry => Some ∅
  | Directory entries => Some entries
  | RegularFile _ => None
  end.

(** A call succeeds whenever a distribution is found and [bin] is not
    a regular file, and this is what it does. *)
Lemma install_entry_points_run (extracted_whl_directory : string)
    (whl : ExtractedWhl) (distribution : Distribution)
    (others : list Distribution) (entries : gmap string string) :
  distributions whl = distribution :: others →
  bin_entries whl = Some entries →
  install_entry_points extracted_whl_directory whl
  = let scripts := install_scripts distribution entries in
    (inr (map fst (console_scripts distribution)),
     {| distributions := distributions whl;
        bin := Directory
                 (rename_loop (path_join extracted_whl_directory "bin")
                    (listdir scripts) scripts).2 |}).
Proof.
  intros Hd Hb. unfold install_entry_points. rewrite Hd. cbv zeta.
  assert (match bin whl with
          | NoEntry => inr ∅
          | RegularFile _ =>
              inl (FileExistsError (path_join extracted_whl_directory "bin"))
          | Directory entries => inr entries
          end = inr entries) as ->.
  { unfold bin_entries in Hb. destruct (bin whl); by simplify_eq. }
  pose proof (rename_loop_succeeds
                (path_join extracted_whl_directory "bin")
                (listdir (install_scripts distribution entries))
                (install_scripts distribution entries)
                (listdir_NoDup _)
                (λ f, proj1 (listdir_elem _ f))) as Hok.
  destruct (rename_loop _ _ _) as [[e|] entries']; simpl in *; done.
Qed.

Lemma install_entry_points_success (extracted_whl_directory : string)
    (whl : ExtractedWhl) (names : list string) :
  (install_entry_points extracted_whl_directory whl).1 = inr names →
  ∃ distribution others entries,
    distributions whl = distribution :: others
    ∧ bin_entries whl = Some entries.
Proof.
  unfold install_entry_points, bin_entries.
  destruct (distributions whl) as [|distribution others]; [done|].
  destruct (bin whl); [eauto | done | eauto].
Qed.

(** C4: when the directory holds the metadata of one distribution, a
    call that succeeds returns the names of the console_scripts entry
    points of that distribution, in their order; afterwards every name
    in [bin] ends with [.py]; and a second call on the directory as the
    first one left it succeeds and returns the same names. *)
Theorem install_entry_points_names (extracted_whl_directory : string)
    (whl : ExtractedWhl) (distribution : Distribution)
    (names : list string) :
  distributions whl = [distribution] →
  (install_entry_points extracted_whl_directory whl).1 = inr names →
  let whl' := (install_entry_points extracted_whl_directory whl).2 in
  names = map fst (console_scripts distribution)
  ∧ (∃ entries', bin whl' = Directory entries'
                 ∧ ∀ f, is_Some (entries' !! f) → endswith f ".py" = true)
  ∧ (install_entry_points extracted_whl_directory whl').1 = inr names.
Proof.
  intros Hd Hrun.
  destruct (install_entry_points_success _ _ _ Hrun)
    as (distribution' & others & entries & Hd' & Hb).
  rewrite Hd in Hd'. injection Hd' as <- <-.
  rewrite (install_entry_points_run _ _ _ _ _ Hd Hb) in Hrun |- *.
  cbv zeta in *. cbn [fst snd] in *. injection Hrun as <-.
  set (scripts := install_scripts distribution entries).
  pose proof (rename_loop_succeeds
                (path_join extracted_whl_directory "bin")
                (listdir scripts) scripts (listdir_NoDup _)
                (λ f, proj1 (listdir_elem _ f))) as Hok.
  split_and!.
  - done.
  - eexists. split; [done|].
    apply rename_loop_all_py; [done|].
    intros k Hk. left. by apply listdir_elem.
  - by erewrite install_entry_points_run.
Qed.

(** C6: when no distribution is found in the directory the call raises
    the error whose message names the directory; nothing was written:
    the directory is as it was, [bin] is not even created. *)
Theorem install_entry_points_no_distribution
    (extracted_whl_directory : string) (whl : ExtractedWhl) :
  distributions whl = [] →
  install_entry_points extracted_whl_directory whl
  = (inl (RuntimeError
            ("Could not find in Python distribution in directory: "
               +:+ extracted_whl_directory)),
     whl).
Proof. intros Hd. unfold install_entry_points. by rewrite Hd. Qed.

(** C10: the renaming covers every file that is in [bin] when it
    starts: a file without the suffix that was in [bin] before the call
    is, after a call that succeeds, no longer there under its name and
    there under its name with [.py]; when it is not one of the scripts
    of this call it keeps the content it had. *)
Theorem install_entry_points_renames_existing
    (extracted_whl_directory : string) (whl : ExtractedWhl)
    (names : list string) (entries : gmap string string) (f c : string) :
  (install_entry_points extracted_whl_directory whl).1 = inr names →
  bin whl = Directory entries →
  entries !! f = Some c →
  endswith f ".py" = false →
  ∃ entries',
    bin (install_entry_points extracted_whl_directory whl).2
    = Directory entries'
    ∧ entries' !! f = None
    ∧ is_Some (entries' !! (f +:+ ".py"))
    ∧ (f ∉ names → entries' !! (f +:+ ".py") = Some c).
Proof.
  intros Hrun Hbin Ef Hf.
  destruct (install_entry_points_success _ _ _ Hrun)
    as (distribution & others & entries0 & Hd & Hb).
  assert (entries0 = entries) as ->
    by (unfold bin_entries in Hb; rewrite Hbin in Hb; congruence).
  rewrite (install_entry_points_run _ _ _ _ _ Hd Hb) in Hrun |- *.
  cbv zeta in *. cbn [fst snd bin] in *. injection Hrun as <-.
  set (scripts := install_scripts distribution entries).
  pose proof (rename_loop_succeeds
                (path_join extracted_whl_directory "bin")
                (listdir scripts) scripts (listdir_NoDup _)
                (λ f, proj1 (listdir_elem _ f))) as Hok.
  destruct (install_scripts_keeps distribution entries f) as [c' Ec'];
    [by eexists|]. fold scripts in Ec'.
  destruct (rename_loop_renames (path_join extracted_whl_directory "bin")
              (listdir scripts) scripts f c' (listdir_NoDup _) Hok)
    as [Hpy Hgone]; try done.
  { apply listdir_elem. by eexists. }
  eexists. split_and!; [done | done | by eexists |].
  intros Hnot. rewrite Hpy. subst scripts.
  rewrite install_scripts_other in Ec' by done. congruence.
Qed.

End install.

(** *** The example directory *)

Lemma install_entry_points_names_example :
  (@install_entry_points example.platform "/site/flask"
     (@install_entry_points example.platform "/site/flask" example.whl).2).1
  = inr ["flask"].
Proof.
  destruct (@install_entry_points_names example.platform "/site/flask"
              example.whl example.flask ["flask"] eq_refl)
    as (_ & _ & Hagain).
  - vm_compute. reflexivity.
  - exact Hagain.
Defined.

Lemma install_entry_points_no_distribution_example :
  @install_entry_points example.platform "/site/empty" example.empty
  = (inl (RuntimeError
            "Could not find in Python distribution in directory: /site/empty"),
     example.empty).
Proof.
  exact (@install_entry_points_no_distribution example.platform
           "/site/empty" example.empty eq_refl).
Defined.

Lemma install_entry_points_renames_existing_example :
  ∃ entries',
    bin (@install_entry_points example.platform "/site/flask" example.whl).2
    = Directory entries'
    ∧ entries' !! "helper" = None
    ∧ entries' !! "helper.py" = Some "#!/bin/sh".
Proof.
  destruct (@install_entry_points_renames_existing example.platform
              "/site/flask" example.whl ["flask"]
              (<["helper" := "#!/bin/sh"]> (<["tool.py" := "print(1)"]> ∅))
              "helper" "#!/bin/sh")
    as (entries' & Hbin & Hgone & _ & Hkept).
  - vm_compute. reflexivity.
  - reflexivity.
  - vm_compute. reflexivity.
  - reflexivity.
  - exists entries'. split_and!; [done | done |].
    apply Hkept. intros Hin. apply list_elem_of_singleton in Hin. discriminate.
Defined.

End entry_points_correct.

(** * Further properties *)

(** ** The run as a whole *)
Module extract_wheels_more.
Import PyStr PyStr_facts extract_wheels argparse argparse_run argparse_facts.
Import extract_wheels_correct.

Section main_more.
Context `{Platform}.

(** A computation leaves a part of the world as it is. *)
Definition stable {X A} (part : World → X) (m : M A) : Prop :=
  ∀ w, part (m w).2 = part w.

(** The environment and the paths written, together. *)
Definition env_written (w : World) : Environ * list string :=
  (environ w, written w).

Lemma stable_ret {X A} (part : World → X) (a : A) : stable part (ret a).
Proof. done. Qed.

Lemma stable_raise {X A} (part : World → X) (e : exn) :
  stable part (raise (A := A) e).
Proof. done. Qed.

Lemma stable_lift {X A} (part : World → X) (r : exn + A) :
  stable part (lift r).
Proof. done. Qed.

Lemma stable_bind {X A B} (part : World → X) (m : M A) (k : A → M B) :
  stable part m → (∀ a, stable part (k a)) → stable part (bind m k).
Proof.
  intros Hm Hk w. unfold bind. specialize (Hm w).
  destruct (m w) as [[e|a] w1]; [done|].
  simpl in Hm. rewrite <-Hm. apply Hk.
Qed.

Lemma stable_subprocess_run (cmd : list string) :
  stable env_written (subprocess_run cmd).
Proof. done. Qed.

Lemma stable_check_output (cmd : list string) :
  stable env_written (check_output cmd).
Proof. intros w. unfold check_output. by case_decide. Qed.

Lemma stable_read_file (path : string) : stable env_written (read_file path).
Proof. intros w. unfold read_file. by destruct (files w !! path). Qed.

Lemma stable__dl_wheel (req : Requirement) (opts : list string) :
  stable env_written (_dl_wheel req opts).
Proof. rewrite _dl_wheel_run. apply stable_subprocess_run. Qed.

Lemma stable_executor_map {X A B C} (part : World → X) (fn : A → B → M C)
    (xs : list A) (ys : list B) :
  (∀ x y, stable part (fn x y)) → stable part (executor_map fn xs ys).
Proof.
  intros Hfn. revert ys.
  induction xs as [|x xs IH]; intros [|y ys] w; try done.
  cbn [executor_map]. specialize (Hfn x y w).
  destruct (fn x y w) as [r w1]. specialize (IH ys w1).
  destruct (executor_map fn xs ys w1) as [rs w2]. simpl in *. congruence.
Qed.

Lemma stable__fetch_packages_parallel (path : string) :
  stable env_written (_fetch_packages_parallel path).
Proof.
  unfold _fetch_packages_parallel.
  apply stable_bind; [apply stable_read_file|]. intros content.
  apply stable_bind; [by intros w; destruct (parse_requirements _ _)|].
  intros parsed_reqs.
  apply stable_bind;
    [apply stable_executor_map; intros; apply stable__dl_wheel|].
  intros kept. apply stable_bind; [apply stable_lift|]. intros procs.
  destruct (filter _ procs); [apply stable_ret | apply stable_raise].
Qed.

Lemma stable_target (repo : string) (extras : Extras) (whl : string) :
  stable env_written (target repo extras whl).
Proof.
  intros w. unfold target, bind.
  by destruct (extract_wheel whl extras (files w)) as [[e|sfx] fs].
Qed.

Lemma stable_for_each {X A B} (part : World → X) (f : A → M B)
    (xs : list A) :
  (∀ x, stable part (f x)) → stable part (for_each f xs).
Proof.
  intros Hf. induction xs as [|x xs IH]; [done|]. cbn [for_each].
  apply stable_bind; [done|]. intros b.
  apply stable_bind; [done|]. intros bs. apply stable_ret.
Qed.

(** What [main] does between reading the command line and writing
    [requirements.bzl]. *)
Definition targets_of (args : Namespace) : M (list string) :=
  (if precompiled args
   then _fetch_packages_parallel (requirements args)
   else (check_output
           [sys_executable; "-m"; "pip"; "wheel"; "-r"; requirements args]
         ;;; ret ())) ;;;
  extras <~ (fun w => (parse_extras (requirements args) (files w), w)) ;;
  whls <~ (fun w => (inr (glob_whl (files w)), w)) ;;
  for_each (target (repo args) extras) whls.

Lemma stable_targets_of (args : Namespace) :
  stable env_written (targets_of args).
Proof.
  unfold targets_of. apply stable_bind.
  { destruct (precompiled args); [apply stable__fetch_packages_parallel|].
    apply stable_bind; [apply stable_check_output | intros; apply stable_ret]. }
  intros _. apply stable_bind; [by intros w; destruct (parse_extras _ _)|].
  intros extras. apply stable_bind; [done|]. intros whls.
  apply stable_for_each. intros whl. apply stable_target.
Qed.

Lemma bind_assoc {A B C} (m : M A) (k : A → M B) (k' : B → M C) (w : World) :
  bind (bind m k) k' w = bind m (λ a, bind (k a) k') w.
Proof. unfold bind. by destruct (m w) as [[e|a] w1]. Qed.

Lemma bind_ext {A B} (m : M A) (k k' : A → M B) (w : World) :
  (∀ a w1, k a w1 = k' a w1) → bind m k w = bind m k' w.
Proof. intros Hk. unfold bind. by destruct (m w) as [[e|a] w1]. Qed.

(** [main] in three steps: the command line, the targets, the file. *)
Lemma main_steps (argv : list string) (w : World) :
  main argv w
  = match parse_args argv with
    | inl e => (inl e, configured w)
    | inr args =>
        match targets_of args (configured w) with
        | (inl e, w1) => (inl e, w1)
        | (inr targets, w1) =>
            write_file "requirements.bzl"
              (generate_requirements_file_contents (repo args) targets) w1
        end
    end.
Proof.
  unfold main, bind at 1, bind at 1, lift.
  destruct (parse_args argv) as [e|args]; [done|].
  fold (configured w). generalize (configured w). intros w0.
  transitivity
    (bind (targets_of args)
       (λ targets,
          write_file "requirements.bzl"
            (generate_requirements_file_contents (repo args) targets)) w0).
  - unfold targets_of. rewrite bind_assoc. apply bind_ext. intros _ w1.
    rewrite bind_assoc. apply bind_ext. intros extras w2.
    by rewrite bind_assoc.
  - unfold bind. by destruct (targets_of args w0) as [[e|targets] w1].
Qed.


Lemma stable_environ {A} (m : M A) :
  stable env_written m → stable environ m.
Proof. intros Hm w. by injection (Hm w). Qed.


(** X1: whatever the arguments and however the run ends, [main] leaves
    [os.environ] as [configure_reproducible_wheels] made it at the
    start: nothing later touches it, so [SOURCE_DATE_EPOCH] and
    [PYTHONHASHSEED] are set and [CFLAGS] ends with [-g0]. *)
Theorem main_environment (argv : list string) (w : World) :
  let environ' := environ (main argv w).2 in
  environ' = configure_reproducible_wheels (environ w)
  ∧ is_Some (environ' !! "SOURCE_DATE_EPOCH")
  ∧ is_Some (environ' !! "PYTHONHASHSEED")
  ∧ ∃ flags, environ' !! "CFLAGS" = Some flags ∧ endswith flags "-g0" = true.
Proof.
  cbv zeta.
  assert (E : environ (main argv w).2
              = configure_reproducible_wheels (environ w)).
  { rewrite main_steps. destruct (parse_args argv) as [e|args]; [done|].
    pose proof (stable_environ _ (stable_targets_of args) (configured w)) as Hs.
    by destruct (targets_of args (configured w)) as [[e|targets] w1]. }
  rewrite E. split_and!; [done|..]; rewrite configure_lookup; simpl.
  - by eexists.
  - by eexists.
  - eexists. split; [done|].
    destruct (environ w !! "CFLAGS") as [flags|]; [|done].
    change (flags +:+ " -g0") with (flags +:+ " " +:+ "-g0").
    rewrite <-append_assoc. apply endswith_append.
Qed.







(** X5: in sequential mode [main] starts one child, the resolver on
    the whole requirements file, whether it then fails or goes on to
    the end: nothing is run a second time. *)
Theorem main_sequential_one_child (argv : list string) (args : Namespace)
    (w : World) :
  parse_args argv = inr args →
  precompiled args = false →
  spawned (main argv w).2
  = spawned w
      ++ [[sys_executable; "-m"; "pip"; "wheel"; "-r"; requirements args]].
Proof. apply main_sequential_spawned. Qed.

(** X6: when the requirements file cannot be opened, or pip cannot
    parse it, [_fetch_packages_parallel] raises and the world is as it
    was: no child has been started. *)
Theorem fetch_parallel_not_started (path : string) (w : World) :
  files w !! path = None
  ∨ (∃ e, parse_requirements path (files w) = inl e) →
  ∃ e, _fetch_packages_parallel path w = (inl e, w).
Proof.
  unfold _fetch_packages_parallel, bind, read_file.
  destruct (files w !! path) as [content|]; [|by eauto].
  intros [?|[e He]]; [done|]. rewrite He. eauto.
Qed.

(** X8: every option handed to the fetch children is a non-empty token
    without whitespace: the newline that ends an option line, and any
    run of blanks or tabs in it, never reaches a command line. *)
Theorem wheel_cmd_opts_of_tokens (requirements_txt_lines : list string) :
  Forall (λ t, t ≠ "" ∧ no_whitespace t = true)
         (wheel_cmd_opts_of requirements_txt_lines).
Proof.
  rewrite wheel_cmd_opts_of_concat. apply Forall_concat, Forall_fmap.
  apply Forall_forall. intros l _. apply split_tokens.
Qed.


End main_more.

(** *** The example run, continued *)




Lemma main_sequential_one_child_example :
  spawned (@main example.platform
             ["--requirements"; "requirements.txt"; "--repo"; "@pypi"]
             example.world).2
  = [["python3"; "-m"; "pip"; "wheel"; "-r"; "requirements.txt"]].
Proof.
  exact (@main_sequential_one_child example.platform
           ["--requirements"; "requirements.txt"; "--repo"; "@pypi"]
           {| requirements := "requirements.txt"; repo := "@pypi";
              precompiled := false |}
           example.world eq_refl eq_refl).
Defined.

Lemma fetch_parallel_not_started_example :
  ∃ e, @_fetch_packages_parallel example.platform "missing.txt" example.world
       = (inl e, example.world).
Proof.
  apply (@fetch_parallel_not_started example.platform "missing.txt"
           example.world).
  left. vm_compute. reflexivity.
Defined.


End extract_wheels_more.

(** ** The directory after a call *)
Module entry_points_more.
Import PyStr PyStr_facts entry_points entry_points_correct.

Section install_more.
Context `{Platform}.

(** The scripts of a list of entry points, written in turn. *)
Definition write_scripts (distribution : Distribution)
    (eps : list (string * string)) (entries : gmap string string)
    : gmap string string :=
  fold_left
    (fun entries '(name, val) =>
       <[name := script_text distribution name val]> entries)
    eps entries.

Lemma install_scripts_write_scripts (distribution : Distribution)
    (entries : gmap string string) :
  install_scripts distribution entries
  = write_scripts distribution (console_scripts distribution) entries.
Proof. done. Qed.

Lemma write_scripts_other (distribution : Distribution)
    (eps : list (string * string)) (entries : gmap string string)
    (k : string) :
  k ∉ map fst eps →
  write_scripts distribution eps entries !! k = entries !! k.
Proof.
  revert entries. induction eps as [|[n v] eps IH]; intros entries Hk; [done|].
  simpl in *. apply not_elem_of_cons in Hk as [Hn Hk].
  rewrite IH by done. by rewrite lookup_insert_ne.
Qed.

(** With one entry point per name, the script of each is in place. *)
Lemma write_scripts_lookup (distribution : Distribution)
    (eps : list (string * string)) (entries : gmap string string)
    (n val : string) :
  NoDup (map fst eps) → (n, val) ∈ eps →
  write_scripts distribution eps entries !! n
  = Some (script_text distribution n val).
Proof.
  revert entries. induction eps as [|[n' v'] eps IH]; intros entries Hnd Hin.
  { by apply elem_of_nil in Hin. }
  simpl in *. apply NoDup_cons in Hnd as [Hn' Hnd].
  apply elem_of_cons in Hin as [Heq|Hin].
  - simplify_eq. rewrite write_scripts_other by done.
    by rewrite lookup_insert_eq.
  - by apply IH.
Qed.

(** What is written under an entry-point name does not depend on what
    the directory held. *)
Lemma write_scripts_same (distribution : Distribution)
    (eps : list (string * string)) (entries1 entries2 : gmap string string)
    (k : string) :
  k ∈ map fst eps →
  write_scripts distribution eps entries1 !! k
  = write_scripts distribution eps entries2 !! k.
Proof.
  revert entries1 entries2.
  induction eps as [|[n v] eps IH]; intros entries1 entries2 Hk.
  { by apply elem_of_nil in Hk. }
  simpl in *. destruct (decide (k ∈ map fst eps)) as [Hin|Hout].
  - by apply IH.
  - apply elem_of_cons in Hk as [->|]; [|done].
    rewrite !write_scripts_other by done. by rewrite !lookup_insert_eq.
Qed.


(** X10: after a call that succeeds, the script of every entry point
    whose name lacks the suffix is in [bin] under the name followed by
    [.py], the file that the generated target names as its source,
    provided no two entry points share a name. *)
Theorem install_entry_points_scripts (extracted_whl_directory : string)
    (whl : ExtractedWhl) (distribution : Distribution)
    (others : list Distribution) (names : list string) (n val : string) :
  distributions whl = distribution :: others →
  (install_entry_points extracted_whl_directory whl).1 = inr names →
  NoDup (map fst (console_scripts distribution)) →
  (n, val) ∈ console_scripts distribution →
  endswith n ".py" = false →
  ∃ entries',
    bin (install_entry_points extracted_whl_directory whl).2
    = Directory entries'
    ∧ entries' !! (n +:+ ".py") = Some (script_text distribution n val)
    ∧ entries' !! n = None.
Proof.
  intros Hd Hrun Hnd Hin Hn.
  destruct (install_entry_points_success _ _ _ Hrun)
    as (distribution' & others' & entries & Hd' & Hb).
  rewrite Hd in Hd'. injection Hd' as <- <-.
  rewrite (install_entry_points_run _ _ _ _ _ Hd Hb). cbv zeta. cbn [snd bin].
  set (scripts := install_scripts distribution entries).
  pose proof (rename_loop_succeeds
                (path_join extracted_whl_directory "bin")
                (listdir scripts) scripts (listdir_NoDup _)
                (λ f, proj1 (listdir_elem _ f))) as Hok.
  assert (Hs : scripts !! n = Some (script_text distribution n val)).
  { subst scripts. rewrite install_scripts_write_scripts.
    by apply write_scripts_lookup. }
  destruct (rename_loop_renames (path_join extracted_whl_directory "bin")
              (listdir scripts) scripts n (script_text distribution n val)
              (listdir_NoDup _) Hok)
    as [Hpy Hgone]; try done.
  { apply listdir_elem. by eexists. }
  eauto.
Qed.

(** X11: a file of [bin] whose name already has the suffix keeps its
    content through a call that succeeds, unless it is a script of this
    call or the name without the suffix is in [bin] or a script too. *)
Theorem install_entry_points_keeps_py (extracted_whl_directory : string)
    (whl : ExtractedWhl) (names : list string)
    (entries : gmap string string) (k c : string) :
  (install_entry_points extracted_whl_directory whl).1 = inr names →
  bin whl = Directory entries →
  entries !! k = Some c →
  endswith k ".py" = true →
  k ∉ names →
  (∀ f, f +:+ ".py" = k → entries !! f = None ∧ f ∉ names) →
  ∃ entries',
    bin (install_entry_points extracted_whl_directory whl).2
    = Directory entries'
    ∧ entries' !! k = Some c.
Proof.
  intros Hrun Hbin Ek Hk Hnot Hstem.
  destruct (install_entry_points_success _ _ _ Hrun)
    as (distribution & others & entries0 & Hd & Hb).
  assert (entries0 = entries) as ->
    by (unfold bin_entries in Hb; rewrite Hbin in Hb; congruence).
  rewrite (install_entry_points_run _ _ _ _ _ Hd Hb) in Hrun |- *.
  cbv zeta in *. cbn [fst snd bin] in *. injection Hrun as <-.
  eexists. split; [done|].
  rewrite rename_loop_keeps_py; [by rewrite install_scripts_other | done |].
  intros f Hf _ E. destruct (Hstem f E) as [Ef Hfn].
  apply listdir_elem in Hf as [c' Hc'].
  rewrite install_scripts_other in Hc' by done. congruence.
Qed.


(** X12: when no entry-point name ends with [.py], a second call on
    the directory as a first successful call left it changes nothing:
    it returns the same names and leaves every file of [bin] with the
    name and the content it had. *)
Theorem install_entry_points_twice (extracted_whl_directory : string)
    (whl : ExtractedWhl) (names : list string) :
  (install_entry_points extracted_whl_directory whl).1 = inr names →
  (∀ n, n ∈ names → endswith n ".py" = false) →
  install_entry_points extracted_whl_directory
    (install_entry_points extracted_whl_directory whl).2
  = install_entry_points extracted_whl_directory whl.
Proof.
  intros Hrun Hnames.
  destruct (install_entry_points_success _ _ _ Hrun)
    as (distribution & others & entries & Hd & Hb).
  rewrite (install_entry_points_run _ _ _ _ _ Hd Hb) in Hrun |- *.
  cbv zeta in *. cbn [fst snd] in *. injection Hrun as <-.
  set (dir := path_join extracted_whl_directory "bin") in *.
  set (scripts1 := install_scripts distribution entries).
  set (entries1 := (rename_loop dir (listdir scripts1) scripts1).2).
  erewrite install_entry_points_run; [|exact Hd|reflexivity].
  cbv zeta. cbn [distributions]. do 3 f_equal. fold dir.
  set (scripts2 := install_scripts distribution entries1).
  pose proof (rename_loop_succeeds dir (listdir scripts1) scripts1
                (listdir_NoDup _) (λ f, proj1 (listdir_elem _ f))) as Hok1.
  pose proof (rename_loop_succeeds dir (listdir scripts2) scripts2
                (listdir_NoDup _) (λ f, proj1 (listdir_elem _ f))) as Hok2.
  pose proof (rename_loop_all_py dir (listdir scripts1) scripts1 Hok1
                (λ k Hk, or_introl (proj2 (listdir_elem _ k) Hk))) as Hall1.
  pose proof (rename_loop_all_py dir (listdir scripts2) scripts2 Hok2
                (λ k Hk, or_introl (proj2 (listdir_elem _ k) Hk))) as Hall2.
  fold entries1 in Hall1.
  apply map_eq. intros k. destruct (endswith k ".py") eqn:Hk.
  - destruct (decide (Exists (λ f, f +:+ ".py" = k ∧ endswith f ".py" = false)
                        (listdir scripts2))) as [Hex|Hnex].
    + apply Exists_exists in Hex as (f & Hf & <- & Hfpy).
      destruct (proj1 (listdir_elem _ _) Hf) as [c2 Hc2].
      assert (Hfn : f ∈ map fst (console_scripts distribution)).
      { destruct (decide (f ∈ map fst (console_scripts distribution)));
          [done|]. exfalso.
        subst scripts2. rewrite install_scripts_other in Hc2 by done.
        rewrite (Hall1 f) in Hfpy by (by eexists). done. }
      destruct (rename_loop_renames dir (listdir scripts2) scripts2 f c2
                  (listdir_NoDup _) Hok2 Hf Hfpy Hc2) as [-> _].
      assert (Hc1 : scripts1 !! f = Some c2).
      { rewrite <-Hc2. subst scripts1 scripts2.
        rewrite !install_scripts_write_scripts.
        by apply write_scripts_same. }
      symmetry.
      apply (rename_loop_renames dir (listdir scripts1) scripts1 f c2
               (listdir_NoDup _) Hok1); try done.
      apply listdir_elem. by eexists.
    + rewrite rename_loop_keeps_py; [|done|].
      * subst scripts2. apply install_scripts_other.
        intros Hin. apply Hnames in Hin. congruence.
      * intros f Hf Hfpy E. apply Hnex. apply Exists_exists. eauto.
  - destruct (entries1 !! k) as [c1|] eqn:E1.
    { rewrite (Hall1 k) in Hk by (by eexists). done. }
    destruct ((rename_loop dir (listdir scripts2) scripts2).2 !! k)
      as [c'|] eqn:E2; [|done].
    rewrite (Hall2 k) in Hk by (by eexists). done.
Qed.

(** X13: the name of the generated target is the entry-point name, or
    ["bin-"] and the entry-point name; it is never the name of the
    package, which is the name of the library target; and two entry
    points of a package get the same target name only when they are the
    same, or when one is the package name and the other is ["bin-"]
    followed by the package name. *)
Theorem target_names (pkg_name : string) :
  let rule := λ n, if decide (n = pkg_name) then "bin-" +:+ n else n in
  (∀ n, _bazel_py_target_for_entry_point pkg_name n
        = Some (py_binary (rule n) n pkg_name))
  ∧ (∀ n, rule n ≠ pkg_name)
  ∧ (∀ n1 n2, rule n1 = rule n2 →
       n1 = n2
       ∨ (n1 = pkg_name ∧ n2 = "bin-" +:+ pkg_name)
       ∨ (n2 = pkg_name ∧ n1 = "bin-" +:+ pkg_name)).
Proof.
  cbv zeta. split_and!.
  - apply _bazel_py_target_for_entry_point_text.
  - intros n. case_decide; [subst; apply bin_prefix_differs | done].
  - intros n1 n2. repeat case_decide; subst; intros E; auto.
Qed.

End install_more.

(** *** The example directory, continued *)

Lemma install_entry_points_scripts_example :
  ∃ entries',
    bin (@install_entry_points example.platform "/site/flask" example.whl).2
    = Directory entries'
    ∧ entries' !! "flask.py" = Some "# flask = flask.cli:main"
    ∧ entries' !! "flask" = None.
Proof.
  apply (@install_entry_points_scripts example.platform "/site/flask"
           example.whl example.flask [] ["flask"] "flask"
           "flask = flask.cli:main").
  - reflexivity.
  - vm_compute. reflexivity.
  - vm_compute. repeat constructor. intros Hin. by apply elem_of_nil in Hin.
  - vm_compute. left.
  - reflexivity.
Defined.

Lemma install_entry_points_keeps_py_example :
  ∃ entries',
    bin (@install_entry_points example.platform "/site/flask" example.whl).2
    = Directory entries'
    ∧ entries' !! "tool.py" = Some "print(1)".
Proof.
  apply (@install_entry_points_keeps_py example.platform "/site/flask"
           example.whl ["flask"]
           (<["helper" := "#!/bin/sh"]> (<["tool.py" := "print(1)"]> ∅))).
  - vm_compute. reflexivity.
  - reflexivity.
  - vm_compute. reflexivity.
  - reflexivity.
  - intros Hin. apply list_elem_of_singleton in Hin. discriminate.
  - intros f E. assert (f = "tool") as ->
      by (apply (append_inj_r f "tool" ".py"); exact E).
    split; [vm_compute; reflexivity|].
    intros Hin. apply list_elem_of_singleton in Hin. discriminate.
Defined.

Lemma install_entry_points_twice_example :
  @install_entry_points example.platform "/site/flask"
    (@install_entry_points example.platform "/site/flask" example.whl).2
  = @install_entry_points example.platform "/site/flask" example.whl.
Proof.
  apply (@install_entry_points_twice example.platform "/site/flask"
           example.whl ["flask"]).
  - vm_compute. reflexivity.
  - intros n Hin. apply list_elem_of_singleton in Hin. subst n. reflexivity.
Defined.

End entry_points_more.
